(** * Q47 satellite scanner: the radar loop of [titan_radar_ultimate_5000.py]

    The script derives, for every main star [n], the integer
    [P = n^47 - (n-1)^47] and looks for primes [P - k] at even gaps [k]
    below it.  Python integers are unbounded, so every number is a [Z];
    [%] on a positive modulus is [Z.modulo].  The primality test of gmpy2
    is an external function: it is a parameter of the development (a
    total function to [bool]), and the scan records each call it makes
    to it.

    The model covers [q47] (lines 17-18) and [main] (lines 20-101): the
    star table (lines 26-57) and the three nested loops (lines 73-93).
    The banners, the timing and the final summary lines print nothing
    but the two counters and are left out; reading the log files is
    outside, [main] takes the numbers the pattern matched in them. *)

From Stdlib Require Import ZArith Zdivisibility Zpow_facts Lia.
From stdpp Require Import base tactics numbers list sorting gmap.

Local Open Scope Z_scope.

(** ** Module constants *)

Definition Q : Z := 47.
Definition SEARCH_RADIUS : Z := 5000.

(** [q47(n)]: [n**Q - (n-1)**Q]. *)
Definition q47 (n : Z) : Z := n ^ Q - (n - 1) ^ Q.

(** Python's [range(start, stop, step)] for a positive [step]: the values
    [start + i*step] below [stop]; empty when [stop <= start]. *)
Definition range (start stop step : Z) : list Z :=
  (λ i, start + step * i) <$> seqZ 0 ((stop - start + step - 1) `div` step).

(** The gaps a given radius makes the loop visit. *)
Definition gaps (radius : Z) : list Z := range 2 (radius + 1) 2.

(** The module's [hardcoded_n] star table. *)
Definition hardcoded_n : list Z :=
  [ 117309848; 136584738; 218787064; 411784485; 423600750;
    523331634; 640399031; 987980498; 1163461515; 1370439187;
    1643105964; 1691581855; 1975860550; 1996430175;
    2156109985; 2367719045; 2559344807; 2646631730; 2682956949;
    2859276863; 2862155914; 2922108368; 3808591354; 3910149357;
    3984049296 ].

(** ** Observable behaviour

    Two lines can be printed for a hit: the twin-prime line (which names
    only the star) and the satellite line (star and gap). *)
Inductive line : Type :=
  | TwinLine (n : Z)
  | SatelliteLine (n k : Z).

(** What one run does, in order.  Every event carries the star [n] and,
    inside the gap loop, the gap [k] of the iteration it belongs to. *)
Inductive event : Type :=
  | Star (n P : Z)                            (* P = q47(n) *)
  | Skip (n k : Z)                            (* k % 3 == 1: continue *)
  | Candidate (n k c : Z)                     (* candidate = P - k *)
  | Oracle (n k c reps : Z) (verdict : bool)  (* gmpy2.is_prime(c, reps) *)
  | Emit (n k : Z) (l : line).                (* print of a hit *)

#[global] Instance line_eq_dec : EqDecision line.
Proof. solve_decision. Defined.
#[global] Instance event_eq_dec : EqDecision event.
Proof. solve_decision. Defined.

(** The two counters of [main] and the events so far, newest first. *)
Record state : Type := mkState {
  total_satellites : Z;
  twin_primes : Z;
  journal : list event
}.

Definition init : state := mkState 0 0 [].

(** The events of a run in the order they happened. *)
Definition trace (st : state) : list event := reverse (journal st).

Definition log (e : event) (st : state) : state :=
  mkState (total_satellites st) (twin_primes st) (e :: journal st).

Definition count_satellite (st : state) : state :=
  mkState (total_satellites st + 1) (twin_primes st) (journal st).

Definition count_twin (st : state) : state :=
  mkState (total_satellites st) (twin_primes st + 1) (journal st).

(** A [for x in xs: body] loop over a state. *)
Definition for_each {A S : Type} (xs : list A) (body : A → S → S) (s : S) : S :=
  foldl (λ acc x, body x acc) s xs.

(** A Python call either returns or raises. *)
Inductive exception : Type := InvalidInput.
Inductive outcome (A : Type) : Type :=
  | Returned (a : A)
  | Raised (e : exception).
Arguments Returned {A} a.
Arguments Raised {A} e.

Section Radar.

(** [HAS_GMPY2] is set by the import at the top of the module;
    [is_prime] stands for [gmpy2.is_prime]. *)
Variable HAS_GMPY2 : bool.
Variable is_prime : Z → Z → bool.

(** The gap window is [range(2, SEARCH_RADIUS + 1, 2)]; the radius is
    kept as an argument, [main] passes the module constant. *)
Variable radius : Z.

(** Body of the gap loop (lines 80-93) for the star [n] with value [P].
    Python's [and] does not evaluate [gmpy2.is_prime] when [HAS_GMPY2]
    is false. *)
Definition scan_gap (n P k : Z) (st : state) : state :=
  if k `mod` 3 =? 1 then log (Skip n k) st
  else
    let candidate := P - k in
    let st := log (Candidate n k candidate) st in
    if HAS_GMPY2 then
      let verdict := is_prime candidate 25 in
      let st := log (Oracle n k candidate 25 verdict) st in
      if verdict then
        let st := count_satellite st in
        if k =? 2 then log (Emit n k (TwinLine n)) (count_twin st)
        else log (Emit n k (SatelliteLine n k)) st
      else st
    else st.

(** One star (lines 75-79): [P = q47(n)], then the gap loop. *)
Definition scan_star (n : Z) (st : state) : state :=
  let P := q47 n in
  for_each (range 2 (radius + 1) 2) (scan_gap n P) (log (Star n P) st).

(** One entry of the table (line 74): the four stars [base_n + offset]. *)
Definition scan_quadruplet (base_n : Z) (st : state) : state :=
  for_each (range 0 4 1) (λ offset, scan_star (base_n + offset)) st.

(** The radar loop over [sorted_n] (line 73). *)
Definition scan (sorted_n : list Z) (st : state) : state :=
  for_each sorted_n scan_quadruplet st.

(** The loop has no [raise] and no argument check: a call returns. *)
Definition run (sorted_n : list Z) : outcome state :=
  Returned (scan sorted_n init).

(** *** The same loop, event by event

    What one iteration of the gap loop adds to the trace, and what one
    star adds; the lemmas below show the loops produce exactly these. *)
Definition gap_events (n P k : Z) : list event :=
  if k `mod` 3 =? 1 then [Skip n k]
  else
    Candidate n k (P - k) ::
    if HAS_GMPY2 then
      Oracle n k (P - k) 25 (is_prime (P - k) 25) ::
      if is_prime (P - k) 25
      then [Emit n k (if k =? 2 then TwinLine n else SatelliteLine n k)]
      else []
    else [].

Definition star_events (n : Z) : list event :=
  Star n (q47 n) :: (gaps radius ≫= gap_events n (q47 n)).

End Radar.

(** The star table of a run (lines 26-57): the numbers matched in the
    log files of the working directory (the pattern is [\d+], so they
    are not negative), then the hard-coded ones, in a set, then sorted. *)
Definition n_values (matches : list Z) : gset Z :=
  foldl (λ s n, s ∪ {[ n ]}) (foldl (λ s m, s ∪ {[ m ]}) ∅ matches) hardcoded_n.

Definition sorted_n (matches : list Z) : list Z :=
  merge_sort Z.le (elements (n_values matches)).

(** [main()], given what the import found and what the log files hold. *)
Definition main (HAS_GMPY2 : bool) (is_prime : Z → Z → bool) (matches : list Z)
  : outcome state :=
  run HAS_GMPY2 is_prime SEARCH_RADIUS (sorted_n matches).

(** ** Readings of a trace *)

Definition is_twin (l : line) : bool :=
  match l with TwinLine _ => true | SatelliteLine _ _ => false end.

(** The hit records [(n, k, line)] printed by a run. *)
Definition hit_of (e : event) : option (Z * Z * line) :=
  match e with Emit n k l => Some (n, k, l) | _ => None end.
Definition hits (tr : list event) : list (Z * Z * line) := omap hit_of tr.

(** The oracle calls [(n, k, candidate)] of a run. *)
Definition probe_of (e : event) : option (Z * Z * Z) :=
  match e with Oracle n k c _ _ => Some (n, k, c) | _ => None end.
Definition probes (tr : list event) : list (Z * Z * Z) := omap probe_of tr.

(** The stars whose value was computed. *)
Definition star_of (e : event) : option Z :=
  match e with Star n _ => Some n | _ => None end.
Definition stars (tr : list event) : list Z := omap star_of tr.

(** The iterations [(n, k)] of the gap loop, skipped or not. *)
Definition iteration_of (e : event) : option (Z * Z) :=
  match e with
  | Skip n k => Some (n, k)
  | Candidate n k _ => Some (n, k)
  | _ => None
  end.
Definition iterations (tr : list event) : list (Z * Z) := omap iteration_of tr.

(** How often the oracle was asked about gap [k] of star [n]. *)
Definition probe_count (n k : Z) (tr : list event) : nat :=
  length (filter (λ p, p.1.1 = n ∧ p.1.2 = k) (probes tr)).

(** How often a value occurs in a list. *)
Definition occurrences (n : Z) (l : list Z) : nat :=
  length (filter (λ m, m = n) l).

(** The stars a table stands for: each entry and its three successors. *)
Definition main_stars (bases : list Z) : list Z :=
  bases ≫= λ b, (λ offset, b + offset) <$> range 0 4 1.

(** A gap reaches the primality test when the filter lets it through. *)
Definition tested (k : Z) : Prop := k `mod` 3 ≠ 1.

(** A gap of a star with value [P] is reported when it is tested, gmpy2
    is there and the oracle accepts the candidate. *)
Definition accepted (HAS_GMPY2 : bool) (is_prime : Z → Z → bool) (P k : Z) : Prop :=
  tested k ∧ HAS_GMPY2 = true ∧ is_prime (P - k) 25 = true.

(** The line printed for a hit at gap [k] of star [n]. *)
Definition hit_line (n k : Z) : line :=
  if k =? 2 then TwinLine n else SatelliteLine n k.

#[global] Instance tested_dec k : Decision (tested k).
Proof. unfold tested. apply _. Defined.
#[global] Instance accepted_dec h ip P k : Decision (accepted h ip P k).
Proof. unfold accepted. apply _. Defined.

(** The counters say what the trace says: one satellite per printed hit,
    one twin per printed twin line. *)
Definition counters_agree (st : state) : Prop :=
  total_satellites st = Z.of_nat (length (hits (trace st))) ∧
  twin_primes st =
    Z.of_nat (length (filter (λ h, is_twin h.2 = true) (hits (trace st)))).

(** [total_main_stars] (line 58), the figure the summary reports. *)
Definition total_main_stars (matches : list Z) : Z :=
  Z.of_nat (length (sorted_n matches)) * 4.

(** The oracle calls that were answered "prime", as [(n, k, candidate)]. *)
Definition accepted_probe_of (e : event) : option (Z * Z * Z) :=
  match e with Oracle n k c _ true => Some (n, k, c) | _ => None end.
Definition accepted_probes (tr : list event) : list (Z * Z * Z) :=
  omap accepted_probe_of tr.

(** The gaps skipped by the filter, as [(n, k)]. *)
Definition skip_of (e : event) : option (Z * Z) :=
  match e with Skip n k => Some (n, k) | _ => None end.
Definition skips (tr : list event) : list (Z * Z) := omap skip_of tr.

(** ** The catalogue scripts

    [analyze_satellites.py] and [generate_figures.py] read a catalogue
    of satellites, pairs [(main_star_n, gap_k)], and group and count it
    before any statistics are computed.  The integer part of that
    preparation is modelled here; the catalogue is the list of rows in
    file order.  A [dict] is a [gmap]; a [Counter] reads 0 at a key it
    does not hold; [None] stands for the [ValueError] of Python. *)
Module Analysis.

(** [by_star = defaultdict(list)], then [by_star[n].append(k)] for every
    row ([analyze_satellites.py] lines 70-72). *)
Definition by_star (satellites : list (Z * Z)) : gmap Z (list Z) :=
  foldl (λ d row, <[row.1 := default [] (d !! row.1) ++ [row.2]]> d) ∅ satellites.

(** [stars = sorted(by_star.keys())] (line 73). *)
Definition stars (satellites : list (Z * Z)) : list Z :=
  merge_sort Z.le (elements (dom (by_star satellites))).

(** [all_gaps = [k for _, k in satellites]] (line 74). *)
Definition all_gaps (satellites : list (Z * Z)) : list Z := snd <$> satellites.

(** [sats_per = [len(by_star[n]) for n in stars]] (line 75). *)
Definition sats_per (satellites : list (Z * Z)) : list nat :=
  (λ n, length (default [] (by_star satellites !! n))) <$> stars satellites.

(** [n_with = len(stars)] (line 76). *)
Definition n_with (satellites : list (Z * Z)) : nat := length (stars satellites).

(** [Counter(xs)] and its reading [c[r]], the same as [c.get(r, 0)]. *)
Definition Counter (xs : list Z) : gmap Z nat :=
  foldl (λ c x, <[x := S (default 0%nat (c !! x))]> c) ∅ xs.
Definition count (c : gmap Z nat) (r : Z) : nat := default 0%nat (c !! r).

(** [mod30 = Counter(k % 30 for k in all_gaps)] and the residues of the
    table (lines 114-115). *)
Definition mod30 (gaps : list Z) : gmap Z nat :=
  Counter ((λ k, k `mod` 30) <$> gaps).
Definition admissible : list Z := [0; 2; 6; 8; 12; 14; 18; 20; 24; 26].

(** The Count column of the residue table: [mod30[r]] for [r] in
    [admissible] (lines 117-118; [vals] in [figure1]). *)
Definition vals (gaps : list Z) : list nat :=
  (λ r, count (mod30 gaps) r) <$> admissible.

(** [min(xs)]: a [ValueError] on the empty list. *)
Definition min (xs : list Z) : option Z :=
  match xs with
  | [] => None
  | x :: xs => Some (foldl Z.min x xs)
  end.

(** [min_gaps = [min(by_star[n]) for n in stars]] (line 122). *)
Definition min_gaps (satellites : list (Z * Z)) : option (list Z) :=
  mapM (λ n, min (default [] (by_star satellites !! n))) (stars satellites).

(** [figure4]: [small = [(n, k) for n, k in satellites if k <= 100]],
    then [ns, ks = zip( *small)], which cannot be unpacked when [small]
    is empty ([generate_figures.py] lines 168-169). *)
Definition small (satellites : list (Z * Z)) : list (Z * Z) :=
  filter (λ row, row.2 ≤ 100) satellites.
Definition unzip (rows : list (Z * Z)) : option (list Z * list Z) :=
  match rows with
  | [] => None
  | _ => Some (fst <$> rows, snd <$> rows)
  end.
Definition close_encounters (satellites : list (Z * Z)) : option (list Z * list Z) :=
  unzip (small satellites).

(** In [compute_S], for a prime [p]: the set [bad] of the residues [r]
    of [range(p)] with [r % p == 0] or [(r + k) % p == 0], and its size
    [nu] ([analyze_satellites.py] lines 51-57). *)
Definition bad (p k : Z) : gset Z :=
  for_each (range 0 p 1)
    (λ r bad,
       let bad := if r `mod` p =? 0 then bad ∪ {[ r ]} else bad in
       if (r + k) `mod` p =? 0 then bad ∪ {[ r ]} else bad)
    ∅.
Definition nu (p k : Z) : nat := size (bad p k).

End Analysis.

Example range_gaps : range 2 (10 + 1) 2 = [2; 4; 6; 8; 10].
Proof. reflexivity. Qed.

Example range_four : range 0 4 1 = [0; 1; 2; 3].
Proof. reflexivity. Qed.

Example range_odd_radius : gaps 7 = gaps 6.
Proof. reflexivity. Qed.

Example range_empty : gaps 1 = [] ∧ gaps 0 = [] ∧ gaps (-4) = [].
Proof. repeat split. Qed.

Example q47_small : q47 0 = 1 ∧ q47 1 = 1 ∧ q47 2 = 140737488355327.
Proof. repeat split. Qed.

Example scan_toy :
  trace (scan true (λ c _, bool_decide (c = -5)) 6 [0] init) =
  [ Star 0 1; Candidate 0 2 (-1); Oracle 0 2 (-1) 25 false;
      Skip 0 4;
      Candidate 0 6 (-5); Oracle 0 6 (-5) 25 true; Emit 0 6 (SatelliteLine 0 6);
    Star 1 1; Candidate 1 2 (-1); Oracle 1 2 (-1) 25 false;
      Skip 1 4;
      Candidate 1 6 (-5); Oracle 1 6 (-5) 25 true; Emit 1 6 (SatelliteLine 1 6);
    Star 2 (q47 2); Candidate 2 2 (q47 2 - 2); Oracle 2 2 (q47 2 - 2) 25 false;
      Skip 2 4;
      Candidate 2 6 (q47 2 - 6); Oracle 2 6 (q47 2 - 6) 25 false;
    Star 3 (q47 3); Candidate 3 2 (q47 3 - 2); Oracle 3 2 (q47 3 - 2) 25 false;
      Skip 3 4;
      Candidate 3 6 (q47 3 - 6); Oracle 3 6 (q47 3 - 6) 25 false ].
Proof. vm_compute. reflexivity. Qed.

Example scan_toy_counters :
  let st := scan true (λ c _, bool_decide (c < 0)) 6 [0] init in
  total_satellites st = 4 ∧ twin_primes st = 2 ∧
  hits (trace st) =
    [ (0, 2, TwinLine 0); (0, 6, SatelliteLine 0 6);
      (1, 2, TwinLine 1); (1, 6, SatelliteLine 1 6) ].
Proof. vm_compute. repeat split. Qed.

Example scan_toy_without_gmpy2 :
  scan false (λ _ _, true) 4 [7] init =
  mkState 0 0
    (reverse [ Star 7 (q47 7); Candidate 7 2 (q47 7 - 2); Skip 7 4;
               Star 8 (q47 8); Candidate 8 2 (q47 8 - 2); Skip 8 4;
               Star 9 (q47 9); Candidate 9 2 (q47 9 - 2); Skip 9 4;
               Star 10 (q47 10); Candidate 10 2 (q47 10 - 2); Skip 10 4 ]).
Proof. vm_compute. reflexivity. Qed.

Example analysis_toy :
  let satellites := [(7, 12); (3, 2); (7, 6); (3, 200); (7, 2)] in
  Analysis.stars satellites = [3; 7] ∧
  Analysis.by_star satellites !! 7 = Some [12; 6; 2] ∧
  Analysis.by_star satellites !! 5 = None ∧
  Analysis.sats_per satellites = [2; 3]%nat ∧
  Analysis.min_gaps satellites = Some [2; 2] ∧
  Analysis.vals (Analysis.all_gaps satellites)
    = [0; 2; 1; 0; 1; 0; 0; 1; 0; 0]%nat ∧
  Analysis.close_encounters satellites = Some ([7; 3; 7; 7], [12; 2; 6; 2]) ∧
  Analysis.close_encounters [(3, 200)] = None ∧
  Analysis.nu 5 12 = 2%nat ∧ Analysis.nu 3 12 = 1%nat ∧ Analysis.nu 2 7 = 2%nat.
Proof. vm_compute. repeat split. Qed.

Example hardcoded_quadruplets_disjoint : NoDup (main_stars (sorted_n [])).
Proof. apply (bool_decide_unpack _). vm_compute. exact I. Qed.

Example sorted_n_merges :
  take 3 (sorted_n [5; 117309848; 3; 5]) = [3; 5; 117309848].
Proof. vm_compute. reflexivity. Qed.

(** ** The trace of a loop *)

Lemma trace_log e st : trace (log e st) = trace st ++ [e].
Proof. unfold trace, log. simpl. apply reverse_cons. Qed.

Lemma trace_count_satellite st : trace (count_satellite st) = trace st.
Proof. reflexivity. Qed.

Lemma trace_count_twin st : trace (count_twin st) = trace st.
Proof. reflexivity. Qed.

(** A loop whose body appends [ev x] to the trace appends the events of
    all its iterations, in order. *)
Lemma for_each_trace {A : Type} (body : A → state → state) (ev : A → list event) :
  (∀ x st, trace (body x st) = trace st ++ ev x) →
  ∀ xs st, trace (for_each xs body st) = trace st ++ (xs ≫= ev).
Proof.
  intros Hbody xs. unfold for_each.
  induction xs as [|x xs IH]; intros st; simpl.
  - by rewrite app_nil_r.
  - rewrite IH, Hbody, <- app_assoc. done.
Qed.

(** A property kept by the body is kept by the loop. *)
Lemma for_each_invariant {A S : Type} (I : S → Prop) (body : A → S → S) :
  (∀ x s, I s → I (body x s)) →
  ∀ xs s, I s → I (for_each xs body s).
Proof.
  intros Hbody xs. unfold for_each.
  induction xs as [|x xs IH]; intros s Hs; simpl; auto.
Qed.

Section RadarFacts.

Variable HAS_GMPY2 : bool.
Variable is_prime : Z → Z → bool.
Variable radius : Z.

Lemma scan_gap_trace n P k st :
  trace (scan_gap HAS_GMPY2 is_prime n P k st) = trace st ++ gap_events HAS_GMPY2 is_prime n P k.
Proof.
  unfold scan_gap, gap_events.
  destruct (k `mod` 3 =? 1); [apply trace_log|].
  destruct HAS_GMPY2; [|apply trace_log].
  destruct (is_prime (P - k) 25).
  - destruct (k =? 2);
      rewrite !trace_log, ?trace_count_twin, ?trace_count_satellite, !trace_log,
        <- !app_assoc; done.
  - rewrite !trace_log, <- app_assoc. done.
Qed.

Lemma scan_star_trace n st :
  trace (scan_star HAS_GMPY2 is_prime radius n st) = trace st ++ star_events HAS_GMPY2 is_prime radius n.
Proof.
  unfold scan_star, star_events.
  rewrite (for_each_trace _ (gap_events HAS_GMPY2 is_prime n (q47 n))) by apply scan_gap_trace.
  rewrite trace_log, <- app_assoc. done.
Qed.

Lemma scan_quadruplet_trace b st :
  trace (scan_quadruplet HAS_GMPY2 is_prime radius b st) =
  trace st ++ (((λ offset, b + offset) <$> range 0 4 1) ≫= star_events HAS_GMPY2 is_prime radius).
Proof.
  unfold scan_quadruplet.
  rewrite (for_each_trace _ (λ offset, star_events HAS_GMPY2 is_prime radius (b + offset)))
    by (intros; apply scan_star_trace).
  by rewrite list_fmap_bind.
Qed.

(** The whole run, event by event: the stars of the table in order,
    each with its gap loop. *)
Lemma scan_trace bases st :
  trace (scan HAS_GMPY2 is_prime radius bases st) =
  trace st ++ (main_stars bases ≫= star_events HAS_GMPY2 is_prime radius).
Proof.
  unfold scan, main_stars.
  rewrite (for_each_trace _ _ (scan_quadruplet_trace)).
  f_equal. induction bases as [|b bases IH]; [done|].
  rewrite !bind_cons, bind_app, IH. done.
Qed.

End RadarFacts.

(** ** Facts about [range] *)

Lemma elem_of_range start stop step k :
  0 < step →
  k ∈ range start stop step ↔
  start ≤ k < stop ∧ (k - start) `mod` step = 0.
Proof.
  intros Hstep. unfold range. rewrite list_elem_of_fmap.
  setoid_rewrite elem_of_seqZ.
  set (len := (stop - start + step - 1) `div` step).
  split.
  - intros (i & -> & Hi).
    assert (i + 1 ≤ len) as Hlen by lia.
    assert (step * (i + 1) ≤ stop - start + step - 1) as Hmul.
    { etransitivity; [apply Z.mul_le_mono_nonneg_l; [lia|exact Hlen]|].
      apply Z.mul_div_le; lia. }
    split; [nia|].
    replace (start + step * i - start) with (i * step) by lia.
    apply Z_mod_mult.
  - intros ([Hlo Hhi] & Hmod).
    apply Z.mod_divide in Hmod as [i Hi]; [|lia].
    exists i. split; [lia|].
    assert (0 ≤ i) by nia.
    split; [lia|]. simpl.
    assert (i + 1 ≤ len); [|lia].
    apply Z.div_le_lower_bound; [lia|]. nia.
Qed.

Lemma elem_of_gaps radius k :
  k ∈ gaps radius ↔ 2 ≤ k ≤ radius ∧ k `mod` 2 = 0.
Proof.
  unfold gaps. rewrite elem_of_range by lia.
  replace (k - 2) with (k + (-1) * 2) by lia.
  rewrite Z_mod_plus_full. lia.
Qed.

Lemma StronglySorted_seqZ m n : StronglySorted Z.lt (seqZ m n).
Proof.
  destruct (decide (0 ≤ n)) as [Hn|Hn]; [|rewrite seqZ_nil by lia; constructor].
  revert m. pattern n. apply natlike_ind; [| |exact Hn].
  - intros m. rewrite seqZ_nil by lia. constructor.
  - intros x Hx IH m. rewrite seqZ_cons by lia.
    replace (Z.pred (Z.succ x)) with x by lia.
    constructor; [apply IH|].
    apply Forall_seqZ. lia.
Qed.

Lemma StronglySorted_range start stop step :
  0 < step → StronglySorted Z.lt (range start stop step).
Proof.
  intros Hstep. unfold range.
  apply (StronglySorted_fmap _ Z.lt Z.lt); [|apply StronglySorted_seqZ].
  intros i j Hij. nia.
Qed.


Lemma StronglySorted_lt_NoDup (l : list Z) : StronglySorted Z.lt l → NoDup l.
Proof.
  induction 1 as [|x l Hl IH Hx]; constructor; [|done].
  intros Hin. eapply Forall_forall in Hx; [|exact Hin]. lia.
Qed.

Lemma NoDup_gaps radius : NoDup (gaps radius).
Proof. apply StronglySorted_lt_NoDup, StronglySorted_range. lia. Qed.

Lemma length_gaps radius : Z.of_nat (length (gaps radius)) = Z.max 0 radius `div` 2.
Proof.
  unfold gaps, range. rewrite length_fmap, length_seqZ.
  replace (radius + 1 - 2 + 2 - 1) with radius by lia.
  destruct (decide (0 ≤ radius)).
  - rewrite Z.max_r by lia. rewrite Z2Nat.id; [done|].
    apply Z.div_pos; lia.
  - rewrite Z.max_l by lia.
    assert (radius `div` 2 < 0) by (apply Z.div_lt_upper_bound; lia).
    rewrite Z2Nat.nonpos by lia. done.
Qed.

(** ** Readings of the trace of a run *)

Lemma omap_bind {A B C : Type} (f : B → option C) (g : A → list B) (l : list A) :
  omap f (l ≫= g) = l ≫= (λ x, omap f (g x)).
Proof.
  induction l as [|x l IH]; [done|].
  by rewrite !bind_cons, omap_app, IH.
Qed.

Lemma bind_guard {A B : Type} (P : A → Prop) `{∀ x, Decision (P x)}
    (h : A → B) (l : list A) :
  l ≫= (λ x, if decide (P x) then [h x] else []) = h <$> filter P l.
Proof.
  induction l as [|x l IH]; [done|].
  rewrite bind_cons, filter_cons, IH. by case_decide.
Qed.

Lemma bind_singleton_fmap {A B : Type} (h : A → B) (l : list A) :
  l ≫= (λ x, [h x]) = h <$> l.
Proof. induction l as [|x l IH]; [done|]. by rewrite bind_cons, IH. Qed.

Lemma bind_nil_const {A B : Type} (l : list A) : l ≫= (λ _, @nil B) = [].
Proof. induction l as [|x l IH]; [done|]. by rewrite bind_cons, IH. Qed.

Section Readings.

Variable HAS_GMPY2 : bool.
Variable is_prime : Z → Z → bool.
Variable radius : Z.

Abbreviation gap_events := (gap_events HAS_GMPY2 is_prime).
Abbreviation star_events := (star_events HAS_GMPY2 is_prime radius).
Abbreviation accepted := (accepted HAS_GMPY2 is_prime).
Abbreviation scan := (scan HAS_GMPY2 is_prime radius).

Lemma hits_gap n P k :
  hits (gap_events n P k) =
  if decide (accepted P k) then [(n, k, hit_line n k)] else [].
Proof.
  unfold gap_events, hit_line.
  destruct (decide (accepted P k)) as [(Ht & Hh & Hp)|Hn].
  - unfold tested in Ht. apply Z.eqb_neq in Ht. rewrite Ht, Hh, Hp. done.
  - destruct (Z.eqb_spec (k `mod` 3) 1) as [Hk|Hk]; [done|].
    destruct HAS_GMPY2 eqn:Hh; [|done].
    destruct (is_prime (P - k) 25) eqn:Hp; [|done].
    exfalso. apply Hn. repeat split; done.
Qed.

Lemma probes_gap n P k :
  probes (gap_events n P k) =
  if decide (tested k ∧ HAS_GMPY2 = true) then [(n, k, P - k)] else [].
Proof.
  unfold gap_events.
  destruct (decide (tested k ∧ HAS_GMPY2 = true)) as [[Ht Hh]|Hn].
  - unfold tested in Ht. apply Z.eqb_neq in Ht. rewrite Ht, Hh.
    by destruct (is_prime (P - k) 25).
  - destruct (Z.eqb_spec (k `mod` 3) 1) as [Hk|Hk]; [done|].
    destruct HAS_GMPY2 eqn:Hh; [|done].
    exfalso. apply Hn. split; done.
Qed.

Lemma stars_gap n P k : stars (gap_events n P k) = [].
Proof.
  unfold gap_events.
  destruct (k `mod` 3 =? 1), HAS_GMPY2, (is_prime (P - k) 25); done.
Qed.

Lemma iterations_gap n P k : iterations (gap_events n P k) = [(n, k)].
Proof.
  unfold gap_events.
  destruct (k `mod` 3 =? 1), HAS_GMPY2, (is_prime (P - k) 25); done.
Qed.

Lemma hits_star n :
  hits (star_events n) =
  (λ k, (n, k, hit_line n k)) <$> filter (accepted (q47 n)) (gaps radius).
Proof.
  unfold star_events, hits. simpl. rewrite omap_bind.
  rewrite <- bind_guard. apply list_bind_ext; [|done].
  intros k. apply hits_gap.
Qed.

Lemma probes_star n :
  probes (star_events n) =
  (λ k, (n, k, q47 n - k)) <$>
    filter (λ k, tested k ∧ HAS_GMPY2 = true) (gaps radius).
Proof.
  unfold star_events, probes. simpl. rewrite omap_bind.
  rewrite <- bind_guard. apply list_bind_ext; [|done].
  intros k. apply probes_gap.
Qed.

Lemma stars_star n : stars (star_events n) = [n].
Proof.
  unfold star_events, stars. simpl. rewrite omap_bind. f_equal.
  trans (gaps radius ≫= λ _, @nil Z); [|apply bind_nil_const].
  apply list_bind_ext; [|done]. intros k. apply stars_gap.
Qed.

Lemma iterations_star n :
  iterations (star_events n) = (λ k, (n, k)) <$> gaps radius.
Proof.
  unfold star_events, iterations. simpl. rewrite omap_bind.
  rewrite <- bind_singleton_fmap. apply list_bind_ext; [|done].
  intros k. apply iterations_gap.
Qed.

Lemma scan_trace_init bases :
  trace (scan bases init) = main_stars bases ≫= star_events.
Proof. by rewrite scan_trace. Qed.

Lemma hits_scan bases :
  hits (trace (scan bases init)) =
  main_stars bases ≫= λ n,
    (λ k, (n, k, hit_line n k)) <$> filter (accepted (q47 n)) (gaps radius).
Proof.
  rewrite scan_trace_init. unfold hits. rewrite omap_bind.
  apply list_bind_ext; [|done]. intros n. apply hits_star.
Qed.

Lemma probes_scan bases :
  probes (trace (scan bases init)) =
  main_stars bases ≫= λ n,
    (λ k, (n, k, q47 n - k)) <$>
      filter (λ k, tested k ∧ HAS_GMPY2 = true) (gaps radius).
Proof.
  rewrite scan_trace_init. unfold probes. rewrite omap_bind.
  apply list_bind_ext; [|done]. intros n. apply probes_star.
Qed.

Lemma stars_scan bases : stars (trace (scan bases init)) = main_stars bases.
Proof.
  rewrite scan_trace_init. unfold stars. rewrite omap_bind.
  trans (main_stars bases ≫= λ n, [n]).
  - apply list_bind_ext; [|done]. intros n. apply stars_star.
  - exact (eq_trans (bind_singleton_fmap id _) (list_fmap_id _)).
Qed.

Lemma iterations_scan bases :
  iterations (trace (scan bases init)) =
  main_stars bases ≫= λ n, (λ k, (n, k)) <$> gaps radius.
Proof.
  rewrite scan_trace_init. unfold iterations. rewrite omap_bind.
  apply list_bind_ext; [|done]. intros n. apply iterations_star.
Qed.

End Readings.

(** ** Arithmetic of [q47] *)

(** Successive powers: the step [(x+1)^k - x^k] is positive and grows
    with [x] on the non-negative integers. *)
Lemma pow_step_mono (k : nat) x y :
  (1 ≤ k)%nat → 0 ≤ x ≤ y →
  0 < (x + 1) ^ Z.of_nat k - x ^ Z.of_nat k
    ≤ (y + 1) ^ Z.of_nat k - y ^ Z.of_nat k.
Proof.
  intros Hk Hxy. induction k as [|k IH]; [lia|].
  destruct (decide (k = 0%nat)) as [->|Hk0].
  { change (Z.of_nat 1) with 1. rewrite !Z.pow_1_r. lia. }
  destruct IH as [IH1 IH2]; [lia|].
  rewrite Nat2Z.inj_succ, !Z.pow_succ_r by lia.
  assert (0 ≤ x ^ Z.of_nat k) by (apply Z.pow_nonneg; lia).
  assert (x ^ Z.of_nat k ≤ y ^ Z.of_nat k) by (apply Z.pow_le_mono_l; lia).
  set (X1 := (x + 1) ^ Z.of_nat k) in *. set (X := x ^ Z.of_nat k) in *.
  set (Y1 := (y + 1) ^ Z.of_nat k) in *. set (Y := y ^ Z.of_nat k) in *.
  replace ((x + 1) * X1 - x * X) with ((x + 1) * (X1 - X) + X) by lia.
  replace ((y + 1) * Y1 - y * Y) with ((y + 1) * (Y1 - Y) + Y) by lia.
  nia.
Qed.

Lemma pow_step_strict (k : nat) x y :
  (2 ≤ k)%nat → 0 ≤ x < y →
  (x + 1) ^ Z.of_nat k - x ^ Z.of_nat k < (y + 1) ^ Z.of_nat k - y ^ Z.of_nat k.
Proof.
  intros Hk Hxy. destruct k as [|k]; [lia|].
  destruct (pow_step_mono k x y) as [IH1 IH2]; [lia..|].
  rewrite Nat2Z.inj_succ, !Z.pow_succ_r by lia.
  assert (x ^ Z.of_nat k ≤ y ^ Z.of_nat k) by (apply Z.pow_le_mono_l; lia).
  set (X1 := (x + 1) ^ Z.of_nat k) in *. set (X := x ^ Z.of_nat k) in *.
  set (Y1 := (y + 1) ^ Z.of_nat k) in *. set (Y := y ^ Z.of_nat k) in *.
  replace ((x + 1) * X1 - x * X) with ((x + 1) * (X1 - X) + X) by lia.
  replace ((y + 1) * Y1 - y * Y) with ((y + 1) * (Y1 - Y) + Y) by lia.
  nia.
Qed.

(** Whatever the star, its value leaves remainder 1 modulo 3. *)
Lemma q47_mod_3 n : q47 n `mod` 3 = 1.
Proof.
  unfold q47, Q.
  rewrite Zminus_mod, (Zpower_mod n), (Zpower_mod (n - 1)) by lia.
  rewrite (Zminus_mod n 1 3).
  assert (0 ≤ n `mod` 3 < 3) as Hr by (apply Z.mod_pos_bound; lia).
  assert (n `mod` 3 = 0 ∨ n `mod` 3 = 1 ∨ n `mod` 3 = 2) as [-> | [-> | ->]]
    by lia; reflexivity.
Qed.

Lemma q47_minus_divide n k : k `mod` 3 = 1 → (3 | q47 n - k).
Proof.
  intros Hk. apply Z.mod_divide; [lia|].
  rewrite Zminus_mod, q47_mod_3, Hk. reflexivity.
Qed.

Lemma multiple_of_3_not_prime c : (3 | c) → 3 < c → ¬ Z.prime c.
Proof. intros Hdiv Hlt [_ Hprime]. apply (Hprime 3); [lia|done]. Qed.

(** ** The counters follow the trace *)

Section Counters.

Variable HAS_GMPY2 : bool.
Variable is_prime : Z → Z → bool.
Variable radius : Z.

Lemma counters_agree_init : counters_agree init.
Proof. split; reflexivity. Qed.

Lemma counters_agree_log_star n P st :
  counters_agree st → counters_agree (log (Star n P) st).
Proof.
  unfold counters_agree. rewrite trace_log. unfold hits.
  rewrite omap_app. simpl. rewrite app_nil_r. done.
Qed.

Lemma scan_gap_counters n P k st :
  counters_agree st → counters_agree (scan_gap HAS_GMPY2 is_prime n P k st).
Proof.
  intros [Htotal Htwin]. unfold counters_agree.
  rewrite scan_gap_trace. unfold hits.
  rewrite omap_app, filter_app, !length_app, !Nat2Z.inj_add.
  fold (hits (trace st)). rewrite <- Htotal, <- Htwin.
  unfold scan_gap, gap_events.
  destruct (k `mod` 3 =? 1); [simpl; lia|].
  destruct HAS_GMPY2; [|simpl; lia].
  destruct (is_prime (P - k) 25); [|simpl; lia].
  destruct (k =? 2); simpl; lia.
Qed.

Lemma scan_counters bases st :
  counters_agree st → counters_agree (scan HAS_GMPY2 is_prime radius bases st).
Proof.
  unfold scan. apply for_each_invariant. intros b.
  unfold scan_quadruplet. apply for_each_invariant. intros offset s Hs.
  unfold scan_star. apply for_each_invariant.
  - intros k. apply scan_gap_counters.
  - by apply counters_agree_log_star.
Qed.

End Counters.

(** ** Counting *)

Lemma filter_none {A : Type} (P : A → Prop) `{∀ x, Decision (P x)} (l : list A) :
  (∀ x, x ∈ l → ¬ P x) → filter P l = [].
Proof.
  induction l as [|x l IH]; intros Hl; [done|].
  rewrite filter_cons_False by (apply Hl; left).
  apply IH. intros y Hy. apply Hl. by right.
Qed.

Lemma filter_fmap {A B : Type} (f : A → B) (P : B → Prop)
    `{∀ y, Decision (P y)} (l : list A) :
  filter P (f <$> l) = f <$> filter (λ x, P (f x)) l.
Proof.
  induction l as [|x l IH]; [done|].
  rewrite fmap_cons, !filter_cons, IH. by case_decide.
Qed.

Lemma filter_eq_NoDup (l : list Z) x :
  NoDup l → x ∈ l → length (filter (λ y, y = x) l) = 1%nat.
Proof.
  induction 1 as [|y l Hy Hl IH]; intros Hx; [by apply elem_of_nil in Hx|].
  rewrite filter_cons. case_decide as Hyx.
  - subst y. rewrite filter_none; [done|]. intros z Hz ->. done.
  - apply elem_of_cons in Hx as [->|Hx]; [done|]. by apply IH.
Qed.

Lemma length_bind_le {A B : Type} (g : A → list B) (m : nat) (l : list A) :
  (∀ x, (length (g x) ≤ m)%nat) → (length (l ≫= g) ≤ length l * m)%nat.
Proof.
  intros Hg. induction l as [|x l IH]; [done|].
  rewrite bind_cons, length_app. specialize (Hg x). simpl. lia.
Qed.

Lemma length_main_stars bases :
  length (main_stars bases) = (4 * length bases)%nat.
Proof.
  unfold main_stars. induction bases as [|b bases IH]; [done|].
  rewrite bind_cons, length_app, IH, length_fmap. simpl. lia.
Qed.

Lemma elem_of_main_stars bases n :
  n ∈ main_stars bases ↔ ∃ b, b ∈ bases ∧ b ≤ n ≤ b + 3.
Proof.
  unfold main_stars. rewrite list_elem_of_bind.
  split.
  - intros (b & Hn & Hb). exists b. split; [done|].
    apply list_elem_of_fmap in Hn as (o & -> & Ho).
    apply elem_of_range in Ho; lia.
  - intros (b & Hb & Hn). exists b. split; [|done].
    apply list_elem_of_fmap. exists (n - b). split; [lia|].
    apply elem_of_range; [lia|]. rewrite Z.mod_1_r. lia.
Qed.

Lemma occurrences_main_stars b bases n :
  occurrences n (main_stars (b :: bases)) =
  ((if decide (b ≤ n ≤ b + 3)%Z then 1 else 0) + occurrences n (main_stars bases))%nat.
Proof.
  unfold occurrences, main_stars. rewrite bind_cons, filter_app, length_app.
  f_equal. case_decide as Hn.
  - apply filter_eq_NoDup.
    + apply StronglySorted_lt_NoDup.
      apply (StronglySorted_fmap _ Z.lt Z.lt); [intros; lia|].
      apply StronglySorted_range. lia.
    + apply list_elem_of_fmap. exists (n - b). split; [lia|].
      apply elem_of_range; [lia|]. rewrite Z.mod_1_r. lia.
  - rewrite filter_none; [done|]. intros m Hm ->.
    apply list_elem_of_fmap in Hm as (o & -> & Ho).
    apply elem_of_range in Ho; lia.
Qed.

Section ProbeCount.

Variable is_prime : Z → Z → bool.
Variable radius : Z.

(** With gmpy2, gap [k] of star [n] is put to the oracle once each
    time the loop comes to [n]. *)
Lemma probe_count_scan bases n k :
  k ∈ gaps radius → tested k →
  probe_count n k (trace (scan true is_prime radius bases init)) =
  occurrences n (main_stars bases).
Proof.
  intros Hk Ht. unfold probe_count, occurrences. rewrite probes_scan.
  induction (main_stars bases) as [|m l IH]; [done|].
  rewrite bind_cons, filter_app, length_app, IH, filter_cons.
  destruct (decide (m = n)) as [->|Hm].
  - rewrite filter_fmap, length_fmap, list_filter_filter.
    rewrite (list_filter_iff _ (λ y, y = k)).
    + rewrite filter_eq_NoDup; [done|apply NoDup_gaps|done].
    + simpl. intros k'. split; [tauto|]. intros ->. done.
  - rewrite filter_none; [done|]. intros p Hp [Hn _].
    apply list_elem_of_fmap in Hp as (k' & -> & _). done.
Qed.

(** Without gmpy2 the oracle is never asked. *)
Lemma probes_scan_without bases :
  probes (trace (scan false is_prime radius bases init)) = [].
Proof.
  rewrite probes_scan.
  induction (main_stars bases) as [|m l IH]; [done|].
  rewrite bind_cons, IH, app_nil_r.
  rewrite filter_none; [done|]. intros k _ [_ ?]. done.
Qed.

Lemma hits_scan_without bases :
  hits (trace (scan false is_prime radius bases init)) = [].
Proof.
  rewrite hits_scan.
  induction (main_stars bases) as [|m l IH]; [done|].
  rewrite bind_cons, IH, app_nil_r.
  rewrite filter_none; [done|]. intros k _ (_ & ? & _). done.
Qed.

End ProbeCount.

(** ** Where events come from *)

(** The events of one iteration, case by case. *)
Lemma elem_of_gap_events has ip n P k e :
  e ∈ gap_events has ip n P k ↔
  (k `mod` 3 = 1 ∧ e = Skip n k) ∨
  (k `mod` 3 ≠ 1 ∧
   (e = Candidate n k (P - k) ∨
    (has = true ∧
     (e = Oracle n k (P - k) 25 (ip (P - k) 25) ∨
      (ip (P - k) 25 = true ∧ e = Emit n k (hit_line n k)))))).
Proof.
  unfold gap_events, hit_line.
  destruct (Z.eqb_spec (k `mod` 3) 1) as [Hk|Hk], has,
    (ip (P - k) 25) eqn:Hv;
    rewrite ?elem_of_cons, ?elem_of_nil; intuition congruence.
Qed.

(** The events of a run: a star of the table, or an event of one of its
    gaps. *)
Lemma elem_of_scan_trace has ip radius bases e :
  e ∈ trace (scan has ip radius bases init) ↔
  ∃ n, n ∈ main_stars bases ∧
       (e = Star n (q47 n) ∨
        ∃ k, k ∈ gaps radius ∧ e ∈ gap_events has ip n (q47 n) k).
Proof.
  rewrite scan_trace_init, list_elem_of_bind. unfold star_events. split.
  - intros (n & Hin & Hn). exists n. split; [done|].
    apply elem_of_cons in Hin as [->|Hin]; [by left|]. right.
    apply list_elem_of_bind in Hin as (k & He & Hk). eauto.
  - intros (n & Hn & [->|(k & Hk & He)]); exists n; (split; [|done]).
    + apply list_elem_of_here.
    + right. apply list_elem_of_bind. eauto.
Qed.

Ltac event_cases H :=
  apply elem_of_scan_trace in H as (? & ? & [?|(? & ? & H)]);
  [|apply elem_of_gap_events in H]; simplify_eq; intuition simplify_eq; done.

Lemma elem_of_scan_skip has ip radius bases n k :
  Skip n k ∈ trace (scan has ip radius bases init) ↔
  n ∈ main_stars bases ∧ k ∈ gaps radius ∧ k `mod` 3 = 1.
Proof.
  split.
  - intros Hin. event_cases Hin.
  - intros (Hn & Hk & Hmod). apply elem_of_scan_trace.
    exists n. split; [done|]. right. exists k. split; [done|].
    apply elem_of_gap_events. by left.
Qed.

Lemma elem_of_scan_star has ip radius bases n P :
  Star n P ∈ trace (scan has ip radius bases init) → P = q47 n.
Proof. intros Hin. event_cases Hin. Qed.

(** An oracle call is in the trace exactly for a tested gap of a visited
    star when gmpy2 is there, with the fixed repetition count and the
    oracle's own answer. *)
Lemma elem_of_scan_oracle has ip radius bases n k c reps v :
  Oracle n k c reps v ∈ trace (scan has ip radius bases init) ↔
  has = true ∧ n ∈ main_stars bases ∧ k ∈ gaps radius ∧ tested k ∧
  c = q47 n - k ∧ reps = 25 ∧ v = ip c 25.
Proof.
  unfold tested. split.
  - intros Hin. event_cases Hin.
  - intros (Hh & Hn & Hk & Ht & -> & -> & ->). apply elem_of_scan_trace.
    exists n. split; [done|]. right. exists k. split; [done|].
    apply elem_of_gap_events. right. split; [done|]. right. split; [done|].
    by left.
Qed.

Lemma elem_of_probes_scan ip radius bases n k c :
  (n, k, c) ∈ probes (trace (scan true ip radius bases init)) ↔
  n ∈ main_stars bases ∧ k ∈ gaps radius ∧ tested k ∧ c = q47 n - k.
Proof.
  rewrite probes_scan, list_elem_of_bind. split.
  - intros (m & Hin & Hm).
    apply list_elem_of_fmap in Hin as (k' & [= -> -> ->] & Hk').
    apply list_elem_of_filter in Hk' as [[Ht _] Hk']. done.
  - intros (Hn & Hk & Ht & ->). exists n. split; [|done].
    apply list_elem_of_fmap. exists k. split; [done|].
    apply list_elem_of_filter. done.
Qed.

Lemma elem_of_hits_scan has ip radius bases n k l :
  (n, k, l) ∈ hits (trace (scan has ip radius bases init)) ↔
  n ∈ main_stars bases ∧ k ∈ gaps radius ∧
  accepted has ip (q47 n) k ∧ l = hit_line n k.
Proof.
  rewrite hits_scan, list_elem_of_bind. split.
  - intros (m & Hin & Hm).
    apply list_elem_of_fmap in Hin as (k' & [= -> -> ->] & Hk').
    apply list_elem_of_filter in Hk' as [Hacc Hk']. done.
  - intros (Hn & Hk & Hacc & ->). exists n. split; [|done].
    apply list_elem_of_fmap. exists k. split; [done|].
    apply list_elem_of_filter. done.
Qed.

(** ** The star table of [main] *)

Lemma elem_of_foldl_add (l : list Z) (s : gset Z) x :
  x ∈ foldl (λ s n, s ∪ {[ n ]}) s l ↔ x ∈ s ∨ x ∈ l.
Proof.
  revert s. induction l as [|y l IH]; intros s; simpl.
  - rewrite elem_of_nil. tauto.
  - rewrite IH, elem_of_cons, elem_of_union, elem_of_singleton. tauto.
Qed.

Lemma elem_of_sorted_n matches n :
  n ∈ sorted_n matches ↔ n ∈ matches ∨ n ∈ hardcoded_n.
Proof.
  unfold sorted_n, n_values.
  rewrite merge_sort_Permutation, elem_of_elements, !elem_of_foldl_add.
  pose proof (not_elem_of_empty (C:=gset Z) n). tauto.
Qed.

Lemma NoDup_sorted_n matches : NoDup (sorted_n matches).
Proof.
  unfold sorted_n. rewrite merge_sort_Permutation. apply NoDup_elements.
Qed.

Lemma main_returns has ip matches :
  main has ip matches = Returned (scan has ip SEARCH_RADIUS (sorted_n matches) init).
Proof. reflexivity. Qed.

(** * The properties of the scanner *)

(** C1, filter soundness.  For a star [base >= 1] and a gap [k] of the
    window with [k mod 3 = 1], the candidate [q47 base - k] is a multiple
    of 3, hence not a prime when it is above 3; and every gap a run skips
    is of that kind, so the filter never drops a candidate above 3 that
    could be prime. *)
Theorem filter_soundness (base radius k : Z) :
  1 ≤ base → k ∈ gaps radius → k `mod` 3 = 1 →
  (3 | q47 base - k) ∧
  (3 < q47 base - k → ¬ Z.prime (q47 base - k)) ∧
  (∀ has ip bases n' k',
     Skip n' k' ∈ trace (scan has ip radius bases init) →
     (3 | q47 n' - k') ∧ (3 < q47 n' - k' → ¬ Z.prime (q47 n' - k'))).
Proof.
  intros _ _ Hk. split; [by apply q47_minus_divide|].
  split.
  - apply multiple_of_3_not_prime. by apply q47_minus_divide.
  - intros has ip bases n' k' (_ & _ & Hk')%elem_of_scan_skip.
    split; [by apply q47_minus_divide|].
    apply multiple_of_3_not_prime. by apply q47_minus_divide.
Qed.

Lemma filter_soundness_witness :
  (3 | q47 5 - 4) ∧
  (3 < q47 5 - 4 → ¬ Z.prime (q47 5 - 4)) ∧
  (∀ has ip bases n' k',
     Skip n' k' ∈ trace (scan has ip SEARCH_RADIUS bases init) →
     (3 | q47 n' - k') ∧ (3 < q47 n' - k' → ¬ Z.prime (q47 n' - k'))).
Proof.
  apply (filter_soundness 5 SEARCH_RADIUS 4).
  - lia.
  - apply elem_of_gaps. vm_compute. repeat split; discriminate.
  - reflexivity.
Defined.

(** C8, monotonicity of the derived value.  On the stars [>= 1] the value
    [q47] is strictly increasing. *)
Theorem q47_strictly_increasing (a b : Z) :
  1 ≤ a → a < b → q47 a < q47 b.
Proof.
  intros Ha Hab. unfold q47, Q.
  pose proof (pow_step_strict 47 (a - 1) (b - 1)) as H.
  change (Z.of_nat 47) with 47 in H.
  replace (a - 1 + 1) with a in H by lia.
  replace (b - 1 + 1) with b in H by lia.
  apply H; lia.
Qed.

Lemma q47_strictly_increasing_witness : q47 1 < q47 2.
Proof. apply (q47_strictly_increasing 1 2); lia. Defined.

(** C10, gmpy2 fallback.  When the import of gmpy2 failed, a run still
    returns, visits every star of the table and every gap of the window,
    never calls the primality test, prints no hit and ends with both
    counters at zero. *)
Theorem gmpy2_fallback (ip : Z → Z → bool) (radius : Z) (bases : list Z) :
  let st := scan false ip radius bases init in
  run false ip radius bases = Returned st ∧
  stars (trace st) = main_stars bases ∧
  iterations (trace st) = (main_stars bases ≫= λ n, (λ k, (n, k)) <$> gaps radius) ∧
  probes (trace st) = [] ∧
  hits (trace st) = [] ∧
  total_satellites st = 0 ∧
  twin_primes st = 0.
Proof.
  intros st.
  pose proof (scan_counters false ip radius bases init counters_agree_init)
    as [Htotal Htwin].
  fold st in Htotal, Htwin.
  assert (hits (trace st) = []) as Hhits by apply hits_scan_without.
  rewrite Hhits in Htotal, Htwin.
  repeat split; try done.
  - apply stars_scan.
  - apply iterations_scan.
  - apply probes_scan_without.
Qed.

Lemma filter_ext_in {A : Type} (P1 P2 : A → Prop)
    `{!∀ x, Decision (P1 x), !∀ x, Decision (P2 x)} (l : list A) :
  (∀ x, x ∈ l → (P1 x ↔ P2 x)) → filter P1 l = filter P2 l.
Proof.
  induction l as [|x l IH]; intros Hl; [done|].
  rewrite !filter_cons, IH by (intros y Hy; apply Hl; by right).
  pose proof (Hl x (list_elem_of_here _ _)) as Hx.
  destruct (decide (P1 x)), (decide (P2 x)); tauto || done.
Qed.

Lemma is_twin_hit_line n k : is_twin (hit_line n k) = true ↔ k = 2.
Proof. unfold hit_line. destruct (Z.eqb_spec k 2); simpl; split; done. Qed.

(** C5, twin flag.  Every printed hit is the twin-prime line exactly when
    its gap is 2, and [twin_primes] counts exactly the hits at gap 2 (as
    [total_satellites] counts all hits). *)
Theorem twin_flag_correct (has : bool) (ip : Z → Z → bool) (radius : Z)
    (bases : list Z) :
  let st := scan has ip radius bases init in
  Forall (λ h, is_twin h.2 = true ↔ h.1.2 = 2) (hits (trace st)) ∧
  Forall (λ h, h.2 = if h.1.2 =? 2 then TwinLine h.1.1
                     else SatelliteLine h.1.1 h.1.2) (hits (trace st)) ∧
  twin_primes st = Z.of_nat (length (filter (λ h, h.1.2 = 2) (hits (trace st)))) ∧
  total_satellites st = Z.of_nat (length (hits (trace st))).
Proof.
  intros st.
  assert (∀ h, h ∈ hits (trace st) → h.2 = hit_line h.1.1 h.1.2) as Hline.
  { intros [[n k] l] (_ & _ & _ & ->)%elem_of_hits_scan. done. }
  pose proof (scan_counters has ip radius bases init counters_agree_init)
    as [Htotal Htwin].
  fold st in Htotal, Htwin.
  split; [|split; [|split]].
  - apply Forall_forall. intros h Hh. rewrite (Hline h Hh).
    apply is_twin_hit_line.
  - apply Forall_forall. intros h Hh. apply (Hline h Hh).
  - rewrite Htwin. do 2 f_equal. apply filter_ext_in.
    intros h Hh. rewrite (Hline h Hh). apply is_twin_hit_line.
  - exact Htotal.
Qed.


Lemma scan_star_trace_init has ip radius n :
  trace (scan_star has ip radius n init) = star_events has ip radius n.
Proof. by rewrite scan_star_trace. Qed.




Lemma main_stars_quadruplets bases :
  main_stars bases = (bases ≫= λ b, [b; b + 1; b + 2; b + 3]).
Proof.
  unfold main_stars. apply list_bind_ext; [|done].
  intros b. change (range 0 4 1) with [0; 1; 2; 3]. simpl.
  by rewrite Z.add_0_r.
Qed.

Lemma occurrences_main_stars_covering bases n :
  occurrences n (main_stars bases) =
  length (filter (λ b, b ≤ n ≤ b + 3) bases).
Proof.
  induction bases as [|b bases IH]; [done|].
  rewrite occurrences_main_stars, IH, filter_cons.
  destruct (decide (b ≤ n ≤ b + 3)); done.
Qed.

Lemma two_elements {A : Type} (l : list A) x y :
  x ∈ l → y ∈ l → x ≠ y → (2 ≤ length l)%nat.
Proof.
  intros Hx Hy Hxy. destruct l as [|a [|b l]]; simpl; [|exfalso|lia].
  - by apply elem_of_nil in Hx.
  - apply list_elem_of_singleton in Hx, Hy. congruence.
Qed.

(** C9, quadruplet expansion.  A run visits, for every table entry [b],
    the four stars [b, b+1, b+2, b+3], computes [q47] of each and runs the
    whole gap window of each; so a hit can name a star that is not in the
    table, and when two entries are less than 4 apart the later one is
    scanned at least twice. *)
Theorem quadruplet_expansion :
  (∀ has ip radius bases,
     let st := scan has ip radius bases init in
     stars (trace st) = (bases ≫= λ b, [b; b + 1; b + 2; b + 3]) ∧
     (∀ n P, Star n P ∈ trace st → P = q47 n) ∧
     iterations (trace st) =
       (stars (trace st) ≫= λ n, (λ k, (n, k)) <$> range 2 (radius + 1) 2)) ∧
  (∃ bases ip n k l,
     (n, k, l) ∈ hits (trace (scan true ip SEARCH_RADIUS bases init)) ∧
     n ∉ bases) ∧
  (∀ has ip radius bases b1 b2,
     b1 ∈ bases → b2 ∈ bases → b1 < b2 < b1 + 4 →
     (2 ≤ occurrences b2 (stars (trace (scan has ip radius bases init))))%nat).
Proof.
  split; [|split].
  - intros has ip radius bases st. subst st.
    rewrite stars_scan, iterations_scan. repeat split.
    + apply main_stars_quadruplets.
    + apply elem_of_scan_star.
  - exists hardcoded_n, (λ _ _, true), 117309849, 2, (TwinLine 117309849).
    split.
    + apply elem_of_hits_scan. repeat split.
      * apply elem_of_main_stars. exists 117309848. split; [|lia].
        apply list_elem_of_here.
      * apply elem_of_gaps. vm_compute. repeat split; discriminate.
      * unfold tested. vm_compute. discriminate.
    + apply (bool_decide_unpack _). vm_compute. exact I.
  - intros has ip radius bases b1 b2 H1 H2 Hlt.
    rewrite stars_scan, occurrences_main_stars_covering.
    apply (two_elements _ b1 b2); [| |lia]; apply list_elem_of_filter; split;
      (lia || done).
Qed.

(** C2, completeness, as the loop has it.  With gmpy2, a gap [k] of the
    window that passes the filter is put to the oracle, for a star [n],
    once each time [n] comes up among the stars [b .. b+3] of the table
    entries, always with the candidate [q47 n - k]: exactly once when the
    quadruplets of the table do not overlap.  Without gmpy2 it is never
    put to the oracle. *)
Theorem probes_once_per_visit (ip : Z → Z → bool) (radius : Z)
    (bases : list Z) (n k : Z) :
  k ∈ gaps radius → k `mod` 3 ≠ 1 →
  probe_count n k (trace (scan true ip radius bases init))
    = occurrences n (main_stars bases) ∧
  (NoDup (main_stars bases) → n ∈ main_stars bases →
   probe_count n k (trace (scan true ip radius bases init)) = 1%nat) ∧
  (∀ c, (n, k, c) ∈ probes (trace (scan true ip radius bases init)) →
        c = q47 n - k) ∧
  probe_count n k (trace (scan false ip radius bases init)) = 0%nat.
Proof.
  intros Hk Ht. split; [by apply probe_count_scan|]. split; [|split].
  - intros Hnodup Hn. rewrite (probe_count_scan _ _ _ _ _ Hk Ht).
    by apply filter_eq_NoDup.
  - intros c (_ & _ & _ & ->)%elem_of_probes_scan. reflexivity.
  - unfold probe_count. rewrite probes_scan_without. reflexivity.
Qed.

Lemma probes_once_per_visit_witness :
  probe_count 117309848 2
    (trace (scan true (λ _ _, false) SEARCH_RADIUS hardcoded_n init))
    = occurrences 117309848 (main_stars hardcoded_n) ∧
  (NoDup (main_stars hardcoded_n) → 117309848 ∈ main_stars hardcoded_n →
   probe_count 117309848 2
     (trace (scan true (λ _ _, false) SEARCH_RADIUS hardcoded_n init)) = 1%nat) ∧
  (∀ c, (117309848, 2, c) ∈
          probes (trace (scan true (λ _ _, false) SEARCH_RADIUS hardcoded_n init)) →
        c = q47 117309848 - 2) ∧
  probe_count 117309848 2
    (trace (scan false (λ _ _, false) SEARCH_RADIUS hardcoded_n init)) = 0%nat.
Proof.
  apply (probes_once_per_visit (λ _ _, false) SEARCH_RADIUS hardcoded_n
           117309848 2).
  - apply elem_of_gaps. vm_compute. repeat split; discriminate.
  - vm_compute. discriminate.
Defined.

(** "Exactly once per (base, k)" fails both ways.  With the log files
    naming the stars 1 and 2, star 2 is in the table, gap 2 passes the
    filter, and the oracle is asked twice about it; and without gmpy2 it
    is never asked about gap 2 of the first hard-coded star. *)
Lemma probe_count_not_always_one :
  (2 ∈ sorted_n [1; 2] ∧ 2 ∈ gaps SEARCH_RADIUS ∧ 2 `mod` 3 ≠ 1 ∧
   probe_count 2 2
     (trace (scan true (λ _ _, false) SEARCH_RADIUS (sorted_n [1; 2]) init))
     = 2%nat) ∧
  (117309848 ∈ sorted_n [] ∧
   probe_count 117309848 2
     (trace (scan false (λ _ _, false) SEARCH_RADIUS (sorted_n []) init))
     = 0%nat).
Proof.
  assert (2 ∈ gaps SEARCH_RADIUS) as Hgap.
  { apply elem_of_gaps. vm_compute. repeat split; discriminate. }
  assert (2 `mod` 3 ≠ 1) as Hmod by (vm_compute; discriminate).
  split; [split; [|split; [|split]]|split].
  - apply elem_of_sorted_n. left. apply elem_of_cons. right. apply list_elem_of_here.
  - exact Hgap.
  - exact Hmod.
  - rewrite (probe_count_scan _ _ _ _ _ Hgap Hmod). vm_compute. reflexivity.
  - apply elem_of_sorted_n. right. apply list_elem_of_here.
  - unfold probe_count. rewrite probes_scan_without. reflexivity.
Qed.

(** C3, non-positive candidates, as the loop has it.  A candidate
    [q47 n - k <= 0] of a gap that passes the filter is handed to the
    oracle like any other when gmpy2 is there, and is reported exactly
    when the oracle accepts it; only without gmpy2 is it dropped without
    an oracle call. *)
Theorem nonpositive_candidate_handling (ip : Z → Z → bool) (radius : Z)
    (bases : list Z) (n k : Z) :
  n ∈ main_stars bases → k ∈ gaps radius → k `mod` 3 ≠ 1 →
  q47 n - k ≤ 0 →
  let c := q47 n - k in
  Oracle n k c 25 (ip c 25) ∈ trace (scan true ip radius bases init) ∧
  ((n, k, hit_line n k) ∈ hits (trace (scan true ip radius bases init))
     ↔ ip c 25 = true) ∧
  (∀ reps v, Oracle n k c reps v ∉ trace (scan false ip radius bases init)) ∧
  (∀ l, (n, k, l) ∉ hits (trace (scan false ip radius bases init))).
Proof.
  intros Hn Hk Ht _ c. split; [|split; [|split]].
  - apply elem_of_scan_oracle. repeat split; assumption.
  - rewrite elem_of_hits_scan. unfold accepted, tested. fold c. tauto.
  - intros reps v [Hh _]%elem_of_scan_oracle. discriminate.
  - intros l Hin. rewrite hits_scan_without in Hin. by apply elem_of_nil in Hin.
Qed.

Lemma nonpositive_candidate_handling_witness :
  let c := q47 1 - 2 in
  Oracle 1 2 c 25 false ∈ trace (scan true (λ _ _, false) SEARCH_RADIUS [1] init) ∧
  ((1, 2, hit_line 1 2) ∈ hits (trace (scan true (λ _ _, false) SEARCH_RADIUS [1] init))
     ↔ false = true) ∧
  (∀ reps v, Oracle 1 2 c reps v ∉
               trace (scan false (λ _ _, false) SEARCH_RADIUS [1] init)) ∧
  (∀ l, (1, 2, l) ∉ hits (trace (scan false (λ _ _, false) SEARCH_RADIUS [1] init))).
Proof.
  apply (nonpositive_candidate_handling (λ _ _, false) SEARCH_RADIUS [1] 1 2).
  - apply elem_of_main_stars. exists 1. split; [apply list_elem_of_here|lia].
  - apply elem_of_gaps. vm_compute. repeat split; discriminate.
  - vm_compute. discriminate.
  - vm_compute. discriminate.
Defined.

(** The candidate [-1] of star 1 (named by a log file) at gap 2 does
    reach the oracle, and an oracle that accepts it gets it printed. *)
Lemma nonpositive_candidate_reaches_oracle :
  1 ∈ sorted_n [1] ∧ q47 1 - 2 = -1 ∧
  Oracle 1 2 (-1) 25 false ∈
    trace (scan true (λ _ _, false) SEARCH_RADIUS (sorted_n [1]) init) ∧
  (1, 2, TwinLine 1) ∈
    hits (trace (scan true (λ _ _, true) SEARCH_RADIUS (sorted_n [1]) init)).
Proof.
  assert (1 ∈ sorted_n [1]) as Hin.
  { apply elem_of_sorted_n. left. apply list_elem_of_here. }
  assert (1 ∈ main_stars (sorted_n [1])) as Hstar.
  { apply elem_of_main_stars. exists 1. split; [done|lia]. }
  assert (2 ∈ gaps SEARCH_RADIUS) as Hgap.
  { apply elem_of_gaps. vm_compute. repeat split; discriminate. }
  assert (tested 2) as Ht by (vm_compute; discriminate).
  split; [exact Hin|]. split; [reflexivity|]. split.
  - apply elem_of_scan_oracle. repeat split; assumption.
  - apply elem_of_hits_scan. unfold accepted. repeat split; assumption.
Qed.

Lemma gaps_small radius : radius < 2 → gaps radius = [].
Proof.
  intros Hr. unfold gaps, range. rewrite seqZ_nil; [done|].
  replace (radius + 1 - 2 + 2 - 1) with radius by lia.
  assert (radius `div` 2 < 1); [|lia].
  apply Z.div_lt_upper_bound; lia.
Qed.

Lemma gaps_odd radius : radius `mod` 2 = 1 → gaps radius = gaps (radius - 1).
Proof.
  intros Hr. unfold gaps, range. do 2 f_equal.
  replace (radius + 1 - 2 + 2 - 1) with radius by lia.
  replace (radius - 1 + 1 - 2 + 2 - 1) with (radius - 1) by lia.
  pose proof (Z.div_mod radius 2). pose proof (Z.div_mod (radius - 1) 2).
  pose proof (Z.mod_pos_bound (radius - 1) 2). lia.
Qed.

(** C4, invalid input, as the loop has it.  Nothing is checked and
    nothing is raised: every call returns, every table entry (also one
    below 1) is expanded to its four stars and scanned, a radius below 2
    leaves the gap window empty, and an odd radius behaves as the even
    one below it. *)
Theorem no_input_validation (has : bool) (ip : Z → Z → bool) (radius : Z)
    (bases : list Z) :
  let st := scan has ip radius bases init in
  run has ip radius bases = Returned st ∧
  stars (trace st) = main_stars bases ∧
  (radius < 2 → trace st = (λ n, Star n (q47 n)) <$> main_stars bases) ∧
  (radius `mod` 2 = 1 → st = scan has ip (radius - 1) bases init).
Proof.
  intros st. subst st. split; [reflexivity|]. split; [apply stars_scan|]. split.
  - intros Hr. rewrite scan_trace_init. unfold star_events.
    rewrite (gaps_small radius Hr). apply bind_singleton_fmap.
  - intros Hr. unfold scan, scan_quadruplet, scan_star.
    fold (gaps radius). fold (gaps (radius - 1)).
    rewrite (gaps_odd radius Hr). reflexivity.
Qed.

(** A table entry below 1 and a radius that is odd or not positive are
    accepted: with the log files naming star 0, [main] returns and (for
    an oracle that accepts it) prints a hit for star 0; the radius 3
    yields a hit at gap 2, the radius -4 a run without any gap. *)
Lemma invalid_input_is_scanned :
  (0 ∈ sorted_n [0] ∧
   main true (λ _ _, true) [0] ≠ Raised InvalidInput ∧
   ∃ st, main true (λ _ _, true) [0] = Returned st ∧
         (0, 2, TwinLine 0) ∈ hits (trace st)) ∧
  (run true (λ _ _, true) 3 [5] ≠ Raised InvalidInput ∧
   ∃ st, run true (λ _ _, true) 3 [5] = Returned st ∧
         (5, 2, TwinLine 5) ∈ hits (trace st)) ∧
  (run true (λ _ _, true) (-4) [5] ≠ Raised InvalidInput ∧
   ∃ st, run true (λ _ _, true) (-4) [5] = Returned st ∧
         stars (trace st) = [5; 6; 7; 8]).
Proof.
  assert (0 ∈ sorted_n [0]) as Hin.
  { apply elem_of_sorted_n. left. apply list_elem_of_here. }
  split; [|split].
  - split; [exact Hin|]. split; [discriminate|].
    eexists. split; [apply main_returns|].
    apply elem_of_hits_scan. unfold accepted. repeat split.
    + apply elem_of_main_stars. exists 0. split; [exact Hin|lia].
    + apply elem_of_gaps. vm_compute. repeat split; discriminate.
    + vm_compute. discriminate.
  - split; [discriminate|]. eexists. split; [reflexivity|].
    vm_compute. apply list_elem_of_here.
  - split; [discriminate|]. eexists. split; [reflexivity|].
    vm_compute. reflexivity.
Qed.


(** * Further properties of the radar *)

(** ** The value [q47] *)

Lemma q47_mod_2 n : q47 n `mod` 2 = 1.
Proof.
  unfold q47, Q.
  rewrite Zminus_mod, (Zpower_mod n), (Zpower_mod (n - 1)) by lia.
  rewrite (Zminus_mod n 1 2).
  assert (0 ≤ n `mod` 2 < 2) as Hr by (apply Z.mod_pos_bound; lia).
  assert (n `mod` 2 = 0 ∨ n `mod` 2 = 1) as [-> | ->] by lia; reflexivity.
Qed.

Lemma q47_reflect n : q47 (1 - n) = q47 n.
Proof.
  unfold q47, Q.
  replace (1 - n) with (- (n - 1)) by lia.
  replace (- (n - 1) - 1) with (- n) by lia.
  rewrite !Z.pow_opp_odd by (exists 23; reflexivity). lia.
Qed.

Lemma q47_mono_le a b : 1 ≤ a ≤ b → q47 a ≤ q47 b.
Proof.
  intros Hab. unfold q47, Q.
  pose proof (pow_step_mono 47 (a - 1) (b - 1)) as H.
  change (Z.of_nat 47) with 47 in H.
  replace (a - 1 + 1) with a in H by lia.
  replace (b - 1 + 1) with b in H by lia.
  apply H; lia.
Qed.

Lemma q47_pos n : 1 ≤ q47 n.
Proof.
  assert (∀ m, 1 ≤ m → 1 ≤ q47 m) as Hpos.
  { intros m Hm. change 1 with (q47 1) at 1. apply q47_mono_le. lia. }
  destruct (decide (1 ≤ n)) as [Hn|Hn]; [by apply Hpos|].
  rewrite <- q47_reflect. apply Hpos. lia.
Qed.

(** X1.  The value of a star is the same for [n] and [1 - n], is at
    least 1 for every integer and is odd. *)
Theorem q47_reflect_positive_odd (n : Z) :
  q47 (1 - n) = q47 n ∧ 1 ≤ q47 n ∧ q47 n `mod` 2 = 1.
Proof.
  split; [apply q47_reflect|]. split; [apply q47_pos|apply q47_mod_2].
Qed.

(** X2.  The filter is exact: the candidate of a gap is a multiple of 3
    exactly when the gap leaves remainder 1 modulo 3, and a run skips a
    gap of a visited star exactly in that case. *)
Theorem filter_exact (has : bool) (ip : Z → Z → bool) (radius : Z)
    (bases : list Z) (n k : Z) :
  (k `mod` 3 = 1 ↔ (3 | q47 n - k)) ∧
  (Skip n k ∈ trace (scan has ip radius bases init) ↔
   n ∈ main_stars bases ∧ k ∈ gaps radius ∧ (3 | q47 n - k)).
Proof.
  assert (k `mod` 3 = 1 ↔ (3 | q47 n - k)) as Hiff.
  { split; [apply q47_minus_divide|].
    intros Hdiv. apply Z.mod_divide in Hdiv; [|lia].
    rewrite Zminus_mod, q47_mod_3 in Hdiv.
    assert (0 ≤ k `mod` 3 < 3) as Hr by (apply Z.mod_pos_bound; lia).
    assert (k `mod` 3 = 0 ∨ k `mod` 3 = 1 ∨ k `mod` 3 = 2) as [H|[H|H]]
      by lia; rewrite H in Hdiv; [discriminate|exact H|discriminate]. }
  split; [exact Hiff|]. rewrite elem_of_scan_skip, Hiff. reflexivity.
Qed.

Lemma elem_of_scan_candidate has ip radius bases n k c :
  Candidate n k c ∈ trace (scan has ip radius bases init) ↔
  n ∈ main_stars bases ∧ k ∈ gaps radius ∧ tested k ∧ c = q47 n - k.
Proof.
  unfold tested. split.
  - intros Hin. event_cases Hin.
  - intros (Hn & Hk & Ht & ->). apply elem_of_scan_trace.
    exists n. split; [done|]. right. exists k. split; [done|].
    apply elem_of_gap_events. right. split; [done|]. by left.
Qed.

(** X3.  Every candidate a run computes is [q47 n - k] for an even gap
    of the window, is odd and is not a multiple of 3. *)
Theorem candidates_odd_not_multiple_of_3 (has : bool) (ip : Z → Z → bool)
    (radius : Z) (bases : list Z) (n k c : Z) :
  Candidate n k c ∈ trace (scan has ip radius bases init) →
  c = q47 n - k ∧ 2 ≤ k ≤ radius ∧ k `mod` 2 = 0 ∧
  c `mod` 2 = 1 ∧ c `mod` 3 ≠ 0.
Proof.
  intros (_ & [Hk Heven]%elem_of_gaps & Ht & ->)%elem_of_scan_candidate.
  unfold tested in Ht. repeat split; try lia.
  - rewrite Zminus_mod, q47_mod_2, Heven. reflexivity.
  - rewrite Zminus_mod, q47_mod_3.
    assert (0 ≤ k `mod` 3 < 3) as Hr by (apply Z.mod_pos_bound; lia).
    assert (k `mod` 3 = 0 ∨ k `mod` 3 = 2) as [-> | ->] by lia; discriminate.
Qed.

Lemma candidates_odd_not_multiple_of_3_witness :
  let c := q47 5 - 6 in
  c = q47 5 - 6 ∧ 2 ≤ 6 ≤ 6 ∧ 6 `mod` 2 = 0 ∧ c `mod` 2 = 1 ∧ c `mod` 3 ≠ 0.
Proof.
  apply (candidates_odd_not_multiple_of_3 false (λ _ _, false) 6 [5] 5 6).
  apply (bool_decide_unpack _). vm_compute. exact I.
Defined.

(** ** Candidates that are not positive *)

Lemma sorted_n_nonneg matches b :
  Forall (λ m, 0 ≤ m) matches → b ∈ sorted_n matches → 0 ≤ b.
Proof.
  intros Hm [Hb|Hb]%elem_of_sorted_n.
  - by eapply Forall_forall in Hm.
  - assert (Forall (λ m, 0 ≤ m) hardcoded_n) as Hh.
    { unfold hardcoded_n. repeat constructor; lia. }
    by eapply Forall_forall in Hh.
Qed.

Lemma main_returned has ip matches st :
  main has ip matches = Returned st →
  st = scan has ip SEARCH_RADIUS (sorted_n matches) init.
Proof. rewrite main_returns. congruence. Qed.

(** X4.  In a run of [main] (radius 5000, stars read from the log files
    not negative) a candidate that is not positive reaches the oracle
    only for the stars 0 and 1, whose value is 1. *)
Theorem nonpositive_candidate_only_at_0_1 (has : bool) (ip : Z → Z → bool)
    (matches : list Z) (st : state) (n k c reps : Z) (v : bool) :
  Forall (λ m, 0 ≤ m) matches →
  main has ip matches = Returned st →
  Oracle n k c reps v ∈ trace st →
  c ≤ 0 →
  (n = 0 ∨ n = 1) ∧ c = 1 - k.
Proof.
  intros Hm Hmain Hin Hc. apply main_returned in Hmain as ->.
  apply elem_of_scan_oracle in Hin
    as (_ & (b & Hb & Hn)%elem_of_main_stars & [Hk _]%elem_of_gaps & _ & -> & _).
  pose proof (sorted_n_nonneg matches b Hm Hb) as Hb0.
  unfold SEARCH_RADIUS in Hk.
  destruct (decide (2 ≤ n)) as [Hn2|Hn2].
  - exfalso. pose proof (q47_mono_le 2 n ltac:(lia)) as Hle.
    change (q47 2) with 140737488355327 in Hle. lia.
  - assert (n = 0 ∨ n = 1) as [-> | ->] by lia;
      (split; [tauto|reflexivity]).
Qed.

Lemma nonpositive_candidate_only_at_0_1_witness :
  (1 = 0 ∨ 1 = 1) ∧ -1 = 1 - 2.
Proof.
  apply (nonpositive_candidate_only_at_0_1 true (λ _ _, false) [1]
           (scan true (λ _ _, false) SEARCH_RADIUS (sorted_n [1]) init)
           1 2 (-1) 25 false).
  - repeat constructor. lia.
  - reflexivity.
  - apply elem_of_scan_oracle. repeat split.
    + apply elem_of_main_stars. exists 1. split; [|lia].
      apply elem_of_sorted_n. left. apply list_elem_of_here.
    + apply elem_of_gaps. vm_compute. repeat split; discriminate.
    + vm_compute. discriminate.
  - lia.
Defined.

(** ** Hits, oracle answers and counters *)

Lemma fmap_bind {A B C : Type} (f : B → C) (g : A → list B) (l : list A) :
  f <$> (l ≫= g) = l ≫= (λ x, f <$> g x).
Proof.
  induction l as [|x l IH]; [done|].
  by rewrite !bind_cons, fmap_app, IH.
Qed.

Lemma filter_bind {A B : Type} (P : B → Prop) `{∀ y, Decision (P y)}
    (g : A → list B) (l : list A) :
  filter P (l ≫= g) = l ≫= (λ x, filter P (g x)).
Proof.
  induction l as [|x l IH]; [done|].
  by rewrite !bind_cons, filter_app, IH.
Qed.

Lemma length_bind_mono {A B C : Type} (f : A → list B) (g : A → list C)
    (l : list A) :
  (∀ x, (length (f x) ≤ length (g x))%nat) →
  (length (l ≫= f) ≤ length (l ≫= g))%nat.
Proof.
  intros Hfg. induction l as [|x l IH]; [done|].
  rewrite !bind_cons, !length_app. specialize (Hfg x). lia.
Qed.

Lemma length_filter_impl {A : Type} (P1 P2 : A → Prop)
    `{!∀ x, Decision (P1 x), !∀ x, Decision (P2 x)} (l : list A) :
  (∀ x, P1 x → P2 x) → (length (filter P1 l) ≤ length (filter P2 l))%nat.
Proof.
  intros Himpl. induction l as [|x l IH]; [done|].
  rewrite !filter_cons. specialize (Himpl x).
  destruct (decide (P1 x)), (decide (P2 x)); simpl; try lia. tauto.
Qed.

Lemma length_filter_eq_NoDup (l : list Z) x :
  NoDup l → (length (filter (λ y, y = x) l) ≤ 1)%nat.
Proof.
  intros Hl. destruct (decide (x ∈ l)) as [Hx|Hx].
  - by rewrite filter_eq_NoDup.
  - rewrite filter_none; [simpl; lia|]. intros y Hy ->. done.
Qed.

Section AcceptedProbes.

Variable HAS_GMPY2 : bool.
Variable is_prime : Z → Z → bool.
Variable radius : Z.

Lemma accepted_probes_gap n P k :
  accepted_probes (gap_events HAS_GMPY2 is_prime n P k) =
  if decide (accepted HAS_GMPY2 is_prime P k) then [(n, k, P - k)] else [].
Proof.
  unfold gap_events.
  destruct (decide (accepted HAS_GMPY2 is_prime P k)) as [(Ht & Hh & Hp)|Hn].
  - unfold tested in Ht. apply Z.eqb_neq in Ht. rewrite Ht, Hh, Hp. done.
  - destruct (Z.eqb_spec (k `mod` 3) 1) as [Hk|Hk]; [done|].
    destruct HAS_GMPY2 eqn:Hh; [|done].
    destruct (is_prime (P - k) 25) eqn:Hp; [|done].
    exfalso. apply Hn. repeat split; done.
Qed.

Lemma accepted_probes_scan bases :
  accepted_probes (trace (scan HAS_GMPY2 is_prime radius bases init)) =
  main_stars bases ≫= λ n,
    (λ k, (n, k, q47 n - k)) <$>
      filter (accepted HAS_GMPY2 is_prime (q47 n)) (gaps radius).
Proof.
  rewrite scan_trace_init. unfold accepted_probes. rewrite omap_bind.
  apply list_bind_ext; [|done]. intros n.
  unfold star_events. simpl. rewrite omap_bind, <- bind_guard.
  apply list_bind_ext; [|done]. intros k. apply accepted_probes_gap.
Qed.

End AcceptedProbes.

(** X5.  What is printed is what the oracle accepted: the hits of a run
    name, in the same order, the stars and gaps of the oracle calls
    answered "prime", each with the line its gap asks for, and
    [total_satellites] is the number of those calls. *)
Theorem hits_are_accepted_probes (has : bool) (ip : Z → Z → bool)
    (radius : Z) (bases : list Z) :
  let st := scan has ip radius bases init in
  (λ h : Z * Z * line, h.1) <$> hits (trace st)
    = (λ p : Z * Z * Z, p.1) <$> accepted_probes (trace st) ∧
  (∀ n k l, (n, k, l) ∈ hits (trace st) ↔
            Oracle n k (q47 n - k) 25 true ∈ trace st ∧ l = hit_line n k) ∧
  total_satellites st = Z.of_nat (length (accepted_probes (trace st))).
Proof.
  intros st. subst st.
  assert ((λ h : Z * Z * line, h.1) <$>
            hits (trace (scan has ip radius bases init))
          = (λ p : Z * Z * Z, p.1) <$>
            accepted_probes (trace (scan has ip radius bases init))) as Heq.
  { rewrite hits_scan, accepted_probes_scan, !fmap_bind.
    apply list_bind_ext; [|done]. intros n.
    rewrite <- !list_fmap_compose. done. }
  split; [exact Heq|]. split.
  - intros n k l. rewrite elem_of_hits_scan, elem_of_scan_oracle.
    unfold accepted. split.
    + intros (Hn & Hk & (Ht & Hh & Hp) & ->). by rewrite Hp.
    + intros ((Hh & Hn & Hk & Ht & _ & _ & Hp) & ->). done.
  - pose proof (scan_counters has ip radius bases init counters_agree_init)
      as [-> _].
    f_equal. apply (f_equal length) in Heq. by rewrite !length_fmap in Heq.
Qed.

(** X6.  The counters of a run: twins are among the satellites, there
    is at most one twin for each star scanned (four per table entry),
    and there are no more satellites than oracle calls. *)
Theorem counter_bounds (has : bool) (ip : Z → Z → bool) (radius : Z)
    (bases : list Z) :
  let st := scan has ip radius bases init in
  0 ≤ twin_primes st ≤ total_satellites st ∧
  twin_primes st ≤ 4 * Z.of_nat (length bases) ∧
  total_satellites st ≤ Z.of_nat (length (probes (trace st))).
Proof.
  intros st. subst st.
  pose proof (scan_counters has ip radius bases init counters_agree_init)
    as [-> ->].
  split; [|split].
  - split; [lia|]. apply Nat2Z.inj_le, length_filter.
  - rewrite hits_scan, filter_bind.
    pose proof (length_bind_le
      (λ n, filter (λ h : Z * Z * line, is_twin h.2 = true)
              ((λ k, (n, k, hit_line n k)) <$>
               filter (accepted has ip (q47 n)) (gaps radius)))
      1%nat (main_stars bases)) as Hle.
    rewrite length_main_stars in Hle.
    assert (4 * Z.of_nat (length bases)
            = Z.of_nat (4 * length bases * 1)) as -> by lia.
    apply Nat2Z.inj_le, Hle. intros n.
    rewrite filter_fmap, length_fmap, list_filter_filter.
    etrans; [|apply (length_filter_eq_NoDup (gaps radius) 2), NoDup_gaps].
    apply length_filter_impl. simpl. intros k [Htwin _].
    by apply is_twin_hit_line in Htwin.
  - rewrite hits_scan, probes_scan. apply Nat2Z.inj_le, length_bind_mono.
    intros n. rewrite !length_fmap. apply length_filter_impl.
    intros k (Ht & Hh & _). done.
Qed.

(** X7.  Table entries are scanned independently of what came before:
    the run over a table [l1 ++ l2] continues the run over [l1], its
    trace is the trace of [l1] followed by the trace of [l2], and both
    counters add up. *)
Theorem scan_table_app (has : bool) (ip : Z → Z → bool) (radius : Z)
    (l1 l2 : list Z) :
  let st1 := scan has ip radius l1 init in
  let st2 := scan has ip radius l2 init in
  let st := scan has ip radius (l1 ++ l2) init in
  st = scan has ip radius l2 st1 ∧
  trace st = trace st1 ++ trace st2 ∧
  total_satellites st = total_satellites st1 + total_satellites st2 ∧
  twin_primes st = twin_primes st1 + twin_primes st2.
Proof.
  intros st1 st2 st.
  assert (trace st = trace st1 ++ trace st2) as Htrace.
  { subst st st1 st2. rewrite !scan_trace_init.
    unfold main_stars. by rewrite !bind_app. }
  split; [apply foldl_app|]. split; [exact Htrace|].
  pose proof (scan_counters has ip radius (l1 ++ l2) init counters_agree_init)
    as [Ht Hw].
  pose proof (scan_counters has ip radius l1 init counters_agree_init)
    as [Ht1 Hw1].
  pose proof (scan_counters has ip radius l2 init counters_agree_init)
    as [Ht2 Hw2].
  fold st in Ht, Hw. fold st1 in Ht1, Hw1. fold st2 in Ht2, Hw2.
  rewrite Ht, Hw, Ht1, Hw1, Ht2, Hw2, Htrace. unfold hits.
  rewrite omap_app, filter_app, !length_app. lia.
Qed.

(** ** How many gaps are tested *)

Lemma gaps_seqZ radius : gaps radius = (λ i, 2 + 2 * i) <$> seqZ 0 (radius `div` 2).
Proof.
  unfold gaps, range. do 2 f_equal.
  replace (radius + 1 - 2 + 2 - 1) with radius by lia. done.
Qed.

Lemma gaps_even_succ m :
  0 ≤ m → gaps (2 * (m + 1)) = gaps (2 * m) ++ [2 * m + 2].
Proof.
  intros Hm. rewrite !gaps_seqZ.
  replace ((2 * (m + 1)) `div` 2) with (m + 1) by (Z.div_mod_to_equations; lia).
  replace ((2 * m) `div` 2) with m by (Z.div_mod_to_equations; lia).
  rewrite seqZ_app, fmap_app by lia. f_equal.
  rewrite seqZ_cons, seqZ_nil by lia. simpl. f_equal. lia.
Qed.

Lemma gaps_floor_even radius : 0 ≤ radius → gaps radius = gaps (2 * (radius `div` 2)).
Proof.
  intros Hr. rewrite !gaps_seqZ. do 2 f_equal.
  Z.div_mod_to_equations; lia.
Qed.

Lemma tested_count_even (m : nat) :
  Z.of_nat (length (filter tested (gaps (2 * Z.of_nat m)))) =
  (2 * Z.of_nat m) `div` 6 + (2 * Z.of_nat m + 4) `div` 6.
Proof.
  induction m as [|m IH]; [reflexivity|].
  rewrite Nat2Z.inj_succ.
  replace (2 * Z.succ (Z.of_nat m)) with (2 * (Z.of_nat m + 1)) by lia.
  rewrite gaps_even_succ, filter_app, length_app, Nat2Z.inj_add, IH by lia.
  rewrite filter_cons, filter_nil. unfold tested.
  destruct (decide ((2 * Z.of_nat m + 2) `mod` 3 ≠ 1)) as [Ht|Ht]; simpl length;
    Z.div_mod_to_equations; lia.
Qed.

Lemma tested_count radius :
  Z.of_nat (length (filter tested (gaps radius))) =
  Z.max 0 radius `div` 6 + (Z.max 0 radius + 4) `div` 6.
Proof.
  destruct (decide (0 ≤ radius)) as [Hr|Hr].
  - rewrite Z.max_r by lia. rewrite gaps_floor_even by done.
    assert (0 ≤ radius `div` 2) as Hq by (apply Z.div_pos; lia).
    rewrite <- (Z2Nat.id (radius `div` 2)) at 1 by done.
    rewrite tested_count_even, Z2Nat.id by done.
    Z.div_mod_to_equations; lia.
  - rewrite Z.max_l by lia. rewrite gaps_small by lia. reflexivity.
Qed.

Lemma length_bind_const {A B : Type} (g : A → list B) (m : nat) (l : list A) :
  (∀ x, length (g x) = m) → length (l ≫= g) = (length l * m)%nat.
Proof.
  intros Hg. induction l as [|x l IH]; [done|].
  rewrite bind_cons, length_app, IH, Hg. simpl. lia.
Qed.

(** X8.  With gmpy2 a run asks the oracle, for each of the four stars
    of each table entry, once for every even gap of the window that
    leaves remainder 0 or 2 modulo 6: [R/6 + (R+4)/6] calls per star for
    a radius [R >= 0] (1667 at radius 5000), and none for a negative
    radius. *)
Theorem oracle_call_count (ip : Z → Z → bool) (radius : Z) (bases : list Z) :
  let R := Z.max 0 radius in
  Z.of_nat (length (probes (trace (scan true ip radius bases init)))) =
  4 * Z.of_nat (length bases) * (R `div` 6 + (R + 4) `div` 6).
Proof.
  intros R. subst R. rewrite probes_scan, <- tested_count.
  rewrite (length_bind_const _ (length (filter tested (gaps radius)))).
  - rewrite length_main_stars. lia.
  - intros n. rewrite length_fmap. f_equal.
    apply list_filter_iff. intros k. tauto.
Qed.

(** ** Widening the window *)

Lemma gaps_prefix R R' : R ≤ R' → gaps R `prefix_of` gaps R'.
Proof.
  intros HR. rewrite !gaps_seqZ.
  assert (R `div` 2 ≤ R' `div` 2) as Hle by (apply Z.div_le_mono; lia).
  destruct (decide (0 ≤ R `div` 2)) as [Hq|Hq].
  - replace (R' `div` 2) with (R `div` 2 + (R' `div` 2 - R `div` 2)) by lia.
    rewrite seqZ_app, fmap_app by lia. by eexists.
  - rewrite seqZ_nil by lia. apply prefix_nil.
Qed.

Lemma prefix_filter {A : Type} (P : A → Prop) `{∀ x, Decision (P x)}
    (l1 l2 : list A) :
  l1 `prefix_of` l2 → filter P l1 `prefix_of` filter P l2.
Proof. intros [t ->]. rewrite filter_app. by eexists. Qed.

Lemma prefix_fmap {A B : Type} (f : A → B) (l1 l2 : list A) :
  l1 `prefix_of` l2 → f <$> l1 `prefix_of` f <$> l2.
Proof. intros [t ->]. rewrite fmap_app. by eexists. Qed.

(** X9.  A wider window only adds: for [R <= R'] the hits of a star at
    radius [R] are the first hits of that star at radius [R'], every hit
    of a run at [R] is a hit of the run at [R'], and [total_satellites]
    does not decrease. *)
Theorem wider_radius_keeps_hits (has : bool) (ip : Z → Z → bool) (R R' : Z) :
  R ≤ R' →
  (∀ n, hits (trace (scan_star has ip R n init))
          `prefix_of` hits (trace (scan_star has ip R' n init))) ∧
  (∀ bases h, h ∈ hits (trace (scan has ip R bases init)) →
              h ∈ hits (trace (scan has ip R' bases init))) ∧
  (∀ bases, total_satellites (scan has ip R bases init)
              ≤ total_satellites (scan has ip R' bases init)).
Proof.
  intros HR.
  assert (∀ n, filter (accepted has ip (q47 n)) (gaps R)
                 `prefix_of` filter (accepted has ip (q47 n)) (gaps R'))
    as Hpre by (intros n; by apply prefix_filter, gaps_prefix).
  split; [|split].
  - intros n. rewrite !scan_star_trace_init, !hits_star.
    apply prefix_fmap, Hpre.
  - intros bases [[n k] l]. rewrite !elem_of_hits_scan, !elem_of_gaps.
    intros (Hn & Hk & Hacc & Hl).
    split; [exact Hn|]. split; [lia|]. split; [exact Hacc|exact Hl].
  - intros bases.
    pose proof (scan_counters has ip R bases init counters_agree_init) as [-> _].
    pose proof (scan_counters has ip R' bases init counters_agree_init) as [-> _].
    rewrite !hits_scan. apply Nat2Z.inj_le, length_bind_mono.
    intros n. rewrite !length_fmap. apply prefix_length, Hpre.
Qed.

Lemma wider_radius_keeps_hits_witness :
  (∀ n, hits (trace (scan_star true (λ _ _, true) 2 n init))
          `prefix_of` hits (trace (scan_star true (λ _ _, true) SEARCH_RADIUS n init))) ∧
  (∀ bases h, h ∈ hits (trace (scan true (λ _ _, true) 2 bases init)) →
              h ∈ hits (trace (scan true (λ _ _, true) SEARCH_RADIUS bases init))) ∧
  (∀ bases, total_satellites (scan true (λ _ _, true) 2 bases init)
              ≤ total_satellites (scan true (λ _ _, true) SEARCH_RADIUS bases init)).
Proof.
  apply (wider_radius_keeps_hits true (λ _ _, true) 2 SEARCH_RADIUS).
  vm_compute. discriminate.
Defined.

(** ** The star table *)

Lemma StronglySorted_le_NoDup_lt (l : list Z) :
  StronglySorted Z.le l → NoDup l → StronglySorted Z.lt l.
Proof.
  induction 1 as [|x l Hl IH Hx]; intros Hnd; [constructor|].
  apply NoDup_cons in Hnd as [Hxl Hnd].
  constructor; [by apply IH|].
  apply Forall_forall. intros y Hy.
  eapply Forall_forall in Hx; [|exact Hy].
  assert (x ≠ y) by (intros ->; done). lia.
Qed.

Lemma NoDup_hardcoded_n : NoDup hardcoded_n.
Proof. apply (bool_decide_unpack _). vm_compute. exact I. Qed.





(** X12.  [total_main_stars] is the number of star scans the run makes
    (a star covered by two entries counts twice); it is at least 100 and
    at most four times the 25 hard-coded entries plus the matches. *)
Theorem total_main_stars_counts_scans (has : bool) (ip : Z → Z → bool)
    (matches : list Z) (st : state) :
  main has ip matches = Returned st →
  total_main_stars matches = Z.of_nat (length (stars (trace st))) ∧
  100 ≤ total_main_stars matches ≤ 4 * (25 + Z.of_nat (length matches)).
Proof.
  intros ->%main_returned. unfold total_main_stars.
  rewrite stars_scan, length_main_stars. split; [lia|].
  assert (25 ≤ length (sorted_n matches))%nat as Hlo.
  { change 25%nat with (length hardcoded_n).
    apply submseteq_length, NoDup_submseteq; [apply NoDup_hardcoded_n|].
    intros x Hx. apply elem_of_sorted_n. by right. }
  assert (length (sorted_n matches) ≤ length matches + 25)%nat as Hhi.
  { change 25%nat with (length hardcoded_n). rewrite <- length_app.
    apply submseteq_length, NoDup_submseteq; [apply NoDup_sorted_n|].
    intros x Hx. apply elem_of_app, elem_of_sorted_n. done. }
  lia.
Qed.

Lemma total_main_stars_counts_scans_witness :
  total_main_stars [3; 7] =
    Z.of_nat (length (stars (trace
      (scan false (λ _ _, false) SEARCH_RADIUS (sorted_n [3; 7]) init)))) ∧
  100 ≤ total_main_stars [3; 7] ≤ 4 * (25 + Z.of_nat (length [3; 7])).
Proof.
  apply (total_main_stars_counts_scans false (λ _ _, false) [3; 7]).
  reflexivity.
Defined.

(** ** Skipped gaps and repeated hits *)

Lemma length_filter_split {A : Type} (P : A → Prop) `{∀ x, Decision (P x)}
    (l : list A) :
  (length (filter P l) + length (filter (λ x, ¬ P x) l))%nat = length l.
Proof.
  induction l as [|x l IH]; [done|].
  rewrite !filter_cons. destruct (decide (P x)), (decide (¬ P x)); simpl; try lia; tauto.
Qed.

Lemma skips_gap has ip n P k :
  skips (gap_events has ip n P k) = if decide (¬ tested k) then [(n, k)] else [].
Proof.
  unfold gap_events, tested.
  destruct (Z.eqb_spec (k `mod` 3) 1) as [Hk|Hk].
  - rewrite decide_True by tauto. done.
  - rewrite decide_False by tauto.
    destruct has, (ip (P - k) 25); done.
Qed.

Lemma skips_scan has ip radius bases :
  skips (trace (scan has ip radius bases init)) =
  main_stars bases ≫= λ n, (λ k, (n, k)) <$> filter (λ k, ¬ tested k) (gaps radius).
Proof.
  rewrite scan_trace_init. unfold skips. rewrite omap_bind.
  apply list_bind_ext; [|done]. intros n.
  unfold star_events. simpl. rewrite omap_bind, <- bind_guard.
  apply list_bind_ext; [|done]. intros k. apply skips_gap.
Qed.

(** X13.  Of the [R/2] gaps in the window of each star scanned, the
    filter skips [(R+2)/6] (those that leave remainder 4 modulo 6),
    whether gmpy2 is there or not; [R] is the radius, or 0 when it is
    negative. *)
Theorem skip_count (has : bool) (ip : Z → Z → bool) (radius : Z)
    (bases : list Z) :
  let R := Z.max 0 radius in
  let st := scan has ip radius bases init in
  Z.of_nat (length (iterations (trace st)))
    = 4 * Z.of_nat (length bases) * (R `div` 2) ∧
  Z.of_nat (length (skips (trace st)))
    = 4 * Z.of_nat (length bases) * ((R + 2) `div` 6) ∧
  Forall (λ s : Z * Z, s.2 `mod` 6 = 4) (skips (trace st)).
Proof.
  intros R st. subst R st. split; [|split].
  - rewrite iterations_scan, <- length_gaps.
    rewrite (length_bind_const _ (length (gaps radius)))
      by (intros n; apply length_fmap).
    rewrite length_main_stars. lia.
  - rewrite skips_scan.
    rewrite (length_bind_const _
               (length (filter (λ k, ¬ tested k) (gaps radius))))
      by (intros n; apply length_fmap).
    rewrite length_main_stars.
    pose proof (length_filter_split tested (gaps radius)) as Hsplit.
    pose proof (tested_count radius) as Htested.
    pose proof (length_gaps radius) as Hlen.
    assert (Z.of_nat (length (filter (λ k, ¬ tested k) (gaps radius)))
            = (Z.max 0 radius + 2) `div` 6) as Hskip.
    { revert Htested Hlen. generalize (Z.max 0 radius). intros R.
      Z.div_mod_to_equations. lia. }
    rewrite Nat2Z.inj_mul, Nat2Z.inj_mul, Hskip. lia.
  - apply Forall_forall. intros [n k]. rewrite skips_scan.
    intros (m & Hin & _)%list_elem_of_bind.
    apply list_elem_of_fmap in Hin as (k' & [= -> ->] & Hk').
    apply list_elem_of_filter in Hk' as [Ht [_ Heven]%elem_of_gaps].
    unfold tested in Ht. simpl. Z.div_mod_to_equations. lia.
Qed.

(** X14.  A hit is printed once for each time its star is scanned: the
    number of printed hits for gap [k] of star [n], when the oracle
    accepts the candidate, is the number of times [n] occurs among the
    stars [b .. b+3] of the table entries; so a star covered by two
    entries is counted twice in [total_satellites]. *)
Theorem hit_repeats_per_visit (has : bool) (ip : Z → Z → bool) (radius : Z)
    (bases : list Z) (n k : Z) :
  k ∈ gaps radius → accepted has ip (q47 n) k →
  length (filter (λ h : Z * Z * line, h.1.1 = n ∧ h.1.2 = k)
            (hits (trace (scan has ip radius bases init))))
  = occurrences n (main_stars bases).
Proof.
  intros Hk Hacc. unfold occurrences. rewrite hits_scan.
  induction (main_stars bases) as [|m l IH]; [done|].
  rewrite bind_cons, filter_app, length_app, IH, filter_cons.
  destruct (decide (m = n)) as [->|Hm].
  - rewrite filter_fmap, length_fmap, list_filter_filter.
    rewrite (list_filter_iff _ (λ y, y = k)).
    + rewrite filter_eq_NoDup; [done|apply NoDup_gaps|done].
    + simpl. intros k'. split; [tauto|]. intros ->. done.
  - rewrite filter_none; [done|]. intros p Hp [Hn _].
    apply list_elem_of_fmap in Hp as (k' & -> & _). done.
Qed.

Lemma hit_repeats_per_visit_witness :
  length (filter (λ h : Z * Z * line, h.1.1 = 2 ∧ h.1.2 = 2)
            (hits (trace (scan true (λ _ _, true) 6 [1; 2] init))))
  = occurrences 2 (main_stars [1; 2]).
Proof.
  apply (hit_repeats_per_visit true (λ _ _, true) 6 [1; 2] 2 2).
  - apply elem_of_gaps. vm_compute. repeat split; discriminate.
  - unfold accepted, tested. repeat split. vm_compute. discriminate.
Defined.

(** * The catalogue scripts *)

(** ** Grouping the rows by star *)

Lemma by_star_fold_default (satellites : list (Z * Z)) (d : gmap Z (list Z)) n :
  default [] (foldl (λ d row, <[row.1 := default [] (d !! row.1) ++ [row.2]]> d)
                d satellites !! n)
  = default [] (d !! n) ++ (snd <$> filter (λ row, row.1 = n) satellites).
Proof.
  revert d. induction satellites as [|[m k] rows IH]; intros d; simpl.
  - by rewrite app_nil_r.
  - rewrite IH, filter_cons. simpl.
    destruct (decide (m = n)) as [->|Hm].
    + rewrite lookup_insert_eq. simpl. by rewrite <- app_assoc.
    + by rewrite lookup_insert_ne.
Qed.

Lemma by_star_fold_is_Some (satellites : list (Z * Z)) (d : gmap Z (list Z)) n :
  is_Some (foldl (λ d row, <[row.1 := default [] (d !! row.1) ++ [row.2]]> d)
             d satellites !! n)
  ↔ is_Some (d !! n) ∨ n ∈ fst <$> satellites.
Proof.
  revert d. induction satellites as [|[m k] rows IH]; intros d; simpl.
  - rewrite elem_of_nil. tauto.
  - rewrite IH, elem_of_cons. simpl.
    destruct (decide (m = n)) as [->|Hm].
    + rewrite lookup_insert_eq. split; [tauto|]. intros _. left. by eexists.
    + rewrite lookup_insert_ne by done. split; [tauto|].
      intros [?|[?|?]]; [tauto|congruence|tauto].
Qed.

Lemma elem_of_fst_filter (satellites : list (Z * Z)) n :
  n ∈ fst <$> satellites → filter (λ row, row.1 = n) satellites ≠ [].
Proof.
  intros ([m k] & -> & Hin)%list_elem_of_fmap Hnil.
  assert ((m, k) ∈ filter (λ row : Z * Z, row.1 = (m, k).1) satellites) as H
    by (by apply list_elem_of_filter).
  rewrite Hnil in H. by apply elem_of_nil in H.
Qed.

(** X15.  Grouping loses and invents nothing: [by_star] has an entry
    for a star exactly when the catalogue has a row for it, and the
    entry is the list of that star's gaps in file order. *)
Theorem by_star_groups_rows (satellites : list (Z * Z)) (n : Z) :
  Analysis.by_star satellites !! n =
  if decide (n ∈ fst <$> satellites)
  then Some (snd <$> filter (λ row, row.1 = n) satellites)
  else None.
Proof.
  pose proof (by_star_fold_default satellites ∅ n) as Hdef.
  pose proof (by_star_fold_is_Some satellites ∅ n) as Hsome.
  fold (Analysis.by_star satellites) in Hdef, Hsome.
  rewrite lookup_empty in Hdef, Hsome. simpl in Hdef.
  destruct (decide (n ∈ fst <$> satellites)) as [Hin|Hin].
  - destruct Hsome as [_ [l Hl]]; [by right|].
    rewrite Hl in Hdef |- *. simpl in Hdef. by rewrite Hdef.
  - apply eq_None_not_Some. intros H. apply Hsome in H as [[? [=]]|?]. done.
Qed.

Lemma elem_of_analysis_stars (satellites : list (Z * Z)) n :
  n ∈ Analysis.stars satellites ↔ n ∈ fst <$> satellites.
Proof.
  unfold Analysis.stars.
  rewrite merge_sort_Permutation, elem_of_elements, elem_of_dom.
  rewrite by_star_groups_rows. destruct (decide (n ∈ fst <$> satellites)).
  - split; [done|]. intros _. by eexists.
  - split; [intros [? [=]]|done].
Qed.

Lemma NoDup_analysis_stars (satellites : list (Z * Z)) :
  NoDup (Analysis.stars satellites).
Proof.
  unfold Analysis.stars. rewrite merge_sort_Permutation. apply NoDup_elements.
Qed.

Lemma length_filter_or {A : Type} (P Q : A → Prop)
    `{!∀ x, Decision (P x), !∀ x, Decision (Q x)} (l : list A) :
  (∀ x, P x → Q x → False) →
  length (filter (λ x, P x ∨ Q x) l)
  = (length (filter P l) + length (filter Q l))%nat.
Proof.
  intros Hex. induction l as [|x l IH]; [done|].
  rewrite !filter_cons. specialize (Hex x).
  destruct (decide (P x)), (decide (Q x)), (decide (P x ∨ Q x));
    simpl; try lia; tauto.
Qed.

(** Counting by key: the counts of the keys of a duplicate-free list
    add up to the number of rows whose key is in the list. *)
Lemma sum_counts_by_key {A : Type} (f : A → Z) (keys : list Z) (rows : list A) :
  NoDup keys →
  sum_list ((λ n, length (filter (λ row, f row = n) rows)) <$> keys)
  = length (filter (λ row, f row ∈ keys) rows).
Proof.
  induction 1 as [|n keys Hn Hkeys IH]; csimpl.
  - rewrite filter_none; [done|]. intros row _ H. by apply elem_of_nil in H.
  - rewrite IH, <- length_filter_or by (intros row <- H; done).
    f_equal. apply list_filter_iff. intros row. rewrite elem_of_cons.
    split; intros [?|?]; auto.
Qed.

Lemma filter_all {A : Type} (P : A → Prop) `{∀ x, Decision (P x)} (l : list A) :
  (∀ x, x ∈ l → P x) → filter P l = l.
Proof.
  induction l as [|x l IH]; intros Hl; [done|].
  rewrite filter_cons_True by (apply Hl; left).
  f_equal. apply IH. intros y Hy. apply Hl. by right.
Qed.

(** X16.  The stars of the catalogue come out strictly ascending, one
    for each star that has a row; every star counts at least one
    satellite, and the counts add up to the number of rows, so no row is
    lost or counted twice. *)
Theorem sats_per_accounts_for_every_row (satellites : list (Z * Z)) :
  StronglySorted Z.lt (Analysis.stars satellites) ∧
  (∀ n, n ∈ Analysis.stars satellites ↔ ∃ k, (n, k) ∈ satellites) ∧
  Forall (λ c, 1 ≤ c)%nat (Analysis.sats_per satellites) ∧
  sum_list (Analysis.sats_per satellites) = length satellites ∧
  (Analysis.n_with satellites ≤ length satellites)%nat.
Proof.
  assert (Analysis.sats_per satellites
          = (λ n, length (filter (λ row : Z * Z, row.1 = n) satellites))
              <$> Analysis.stars satellites) as Hper.
  { unfold Analysis.sats_per. apply list_fmap_ext. intros i n Hn.
    rewrite by_star_groups_rows.
    apply list_elem_of_lookup_2, elem_of_analysis_stars in Hn.
    rewrite decide_True by done. simpl. apply length_fmap. }
  assert (Forall (λ c, 1 ≤ c)%nat (Analysis.sats_per satellites)) as Hpos.
  { rewrite Hper. apply Forall_fmap, Forall_forall. intros n Hn. simpl.
    apply elem_of_analysis_stars, elem_of_fst_filter in Hn.
    destruct (filter _ satellites); [done|simpl; lia]. }
  assert (sum_list (Analysis.sats_per satellites) = length satellites) as Hsum.
  { rewrite Hper, (sum_counts_by_key fst) by apply NoDup_analysis_stars.
    f_equal. apply filter_all. intros [n k] Hrow.
    apply elem_of_analysis_stars, list_elem_of_fmap. by exists (n, k). }
  split; [|split; [|split; [|split]]]; try done.
  - apply StronglySorted_le_NoDup_lt; [|apply NoDup_analysis_stars].
    unfold Analysis.stars. apply StronglySorted_merge_sort; apply _.
  - intros n. rewrite elem_of_analysis_stars, list_elem_of_fmap. split.
    + intros ([m k] & -> & Hin). by exists k.
    + intros [k Hin]. by exists (n, k).
  - unfold Analysis.n_with. rewrite <- Hsum.
    replace (length (Analysis.stars satellites))
      with (length (Analysis.sats_per satellites))
      by (unfold Analysis.sats_per; apply length_fmap).
    clear Hper Hsum. induction Hpos; simpl; lia.
Qed.

(** ** The nearest satellite of each star *)

Lemma foldl_min_spec (xs : list Z) (x : Z) :
  foldl Z.min x xs ∈ x :: xs ∧ ∀ y, y ∈ x :: xs → foldl Z.min x xs ≤ y.
Proof.
  revert x. induction xs as [|a xs IH]; intros x; simpl.
  - split; [left|]. intros y ->%list_elem_of_singleton. lia.
  - destruct (IH (Z.min x a)) as [Hin Hle]. split.
    + apply elem_of_cons in Hin as [Hin|Hin]; [|by do 2 right].
      rewrite Hin. destruct (Z.min_spec x a) as [[_ ->]|[_ ->]];
        [left|right; left].
    + intros y Hy. apply elem_of_cons in Hy as [->|Hy].
      * etrans; [apply Hle; left|]. lia.
      * apply elem_of_cons in Hy as [->|Hy].
        -- etrans; [apply Hle; left|]. lia.
        -- apply Hle. by right.
Qed.

Lemma analysis_min_spec (satellites : list (Z * Z)) n m :
  Analysis.min (default [] (Analysis.by_star satellites !! n)) = Some m →
  (n, m) ∈ satellites ∧ ∀ k, (n, k) ∈ satellites → m ≤ k.
Proof.
  rewrite by_star_groups_rows.
  destruct (decide (n ∈ fst <$> satellites)) as [Hn|Hn]; simpl; [|done].
  destruct (snd <$> filter (λ row : Z * Z, row.1 = n) satellites)
    as [|x xs] eqn:Hl; simpl; [done|].
  intros [= <-]. destruct (foldl_min_spec xs x) as [Hin Hle].
  rewrite <- Hl in Hin, Hle. split.
  - apply list_elem_of_fmap in Hin as ([n' k] & Hk & Hrow).
    apply list_elem_of_filter in Hrow as [Hn' Hrow].
    simpl in *. by subst.
  - intros k Hk. apply Hle, list_elem_of_fmap. exists (n, k).
    split; [done|]. by apply list_elem_of_filter.
Qed.

(** X17.  [min_gaps] never fails: every star of [stars] has at least one
    gap, so each [min] is defined; the value found for a star is one of
    its gaps in the catalogue and no gap of that star is smaller. *)
Theorem min_gaps_defined (satellites : list (Z * Z)) :
  ∃ mins,
    Analysis.min_gaps satellites = Some mins ∧
    Forall2 (λ n m, (n, m) ∈ satellites ∧ ∀ k, (n, k) ∈ satellites → m ≤ k)
      (Analysis.stars satellites) mins.
Proof.
  assert (is_Some (Analysis.min_gaps satellites)) as [mins Hmins].
  { apply mapM_is_Some_2, Forall_forall. intros n Hn. simpl.
    rewrite by_star_groups_rows.
    apply elem_of_analysis_stars in Hn. rewrite decide_True by done.
    pose proof (elem_of_fst_filter satellites n Hn) as Hne. simpl.
    destruct (filter _ satellites); [done|]. by eexists. }
  exists mins. split; [done|].
  apply mapM_Some_1 in Hmins.
  eapply Forall2_impl; [exact Hmins|]. intros n m. apply analysis_min_spec.
Qed.

(** ** The residue table *)

Lemma count_Counter_fold (xs : list Z) (c : gmap Z nat) r :
  Analysis.count
    (foldl (λ c x, <[x := S (default 0%nat (c !! x))]> c) c xs) r
  = (Analysis.count c r + length (filter (λ x, x = r) xs))%nat.
Proof.
  revert c. induction xs as [|x xs IH]; intros c; simpl; [lia|].
  rewrite IH, filter_cons. unfold Analysis.count.
  destruct (decide (x = r)) as [->|Hx].
  - rewrite lookup_insert_eq. simpl. lia.
  - by rewrite lookup_insert_ne.
Qed.

Lemma count_Counter (xs : list Z) r :
  Analysis.count (Analysis.Counter xs) r = length (filter (λ x, x = r) xs).
Proof. unfold Analysis.Counter. by rewrite count_Counter_fold. Qed.

Lemma admissible_residue k :
  k `mod` 30 ∈ Analysis.admissible ↔ k `mod` 2 = 0 ∧ k `mod` 3 ≠ 1.
Proof.
  unfold Analysis.admissible. rewrite !elem_of_cons, elem_of_nil.
  Z.div_mod_to_equations. lia.
Qed.

Lemma length_filter_all_iff {A : Type} (P : A → Prop) `{∀ x, Decision (P x)}
    (l : list A) :
  length (filter P l) = length l ↔ Forall P l.
Proof.
  split.
  - intros Hlen. apply Forall_forall. intros x Hx.
    destruct (decide (P x)) as [|Hn]; [done|].
    pose proof (length_filter_lt P l x Hx Hn). lia.
  - intros Hall. f_equal. apply filter_all. by apply Forall_forall.
Qed.

Lemma sum_vals (gs : list Z) :
  sum_list (Analysis.vals gs)
  = length (filter (λ k, k `mod` 2 = 0 ∧ k `mod` 3 ≠ 1) gs).
Proof.
  unfold Analysis.vals, Analysis.mod30.
  trans (sum_list ((λ r, length (filter (λ k, k `mod` 30 = r) gs))
                     <$> Analysis.admissible)).
  - f_equal. apply list_fmap_ext. intros _ r _.
    rewrite count_Counter, filter_fmap. apply length_fmap.
  - rewrite (sum_counts_by_key (λ k, k `mod` 30))
      by (apply (bool_decide_unpack _); vm_compute; exact I).
    f_equal. apply list_filter_iff. intros k. apply admissible_residue.
Qed.

(** X18.  The Count column of the mod-30 table adds up to the number of
    gaps that are even and do not leave remainder 1 modulo 3; so the
    table accounts for every gap exactly when all gaps are of that kind,
    as the gaps of the hits of the radar always are. *)
Theorem residue_table_total (gs : list Z) :
  sum_list (Analysis.vals gs)
    = length (filter (λ k, k `mod` 2 = 0 ∧ k `mod` 3 ≠ 1) gs) ∧
  (sum_list (Analysis.vals gs) = length gs
     ↔ Forall (λ k, k `mod` 2 = 0 ∧ k `mod` 3 ≠ 1) gs) ∧
  (∀ has ip radius bases,
     let radar_gaps :=
       (λ h : Z * Z * line, h.1.2)
         <$> hits (trace (scan has ip radius bases init)) in
     sum_list (Analysis.vals radar_gaps) = length radar_gaps).
Proof.
  split; [apply sum_vals|]. split.
  - rewrite sum_vals. apply length_filter_all_iff.
  - intros has ip radius bases radar_gaps. rewrite sum_vals.
    apply length_filter_all_iff, Forall_fmap, Forall_forall.
    intros [[n k] l] (_ & [_ Heven]%elem_of_gaps & (Ht & _) & _)%elem_of_hits_scan.
    simpl. split; [exact Heven|exact Ht].
Qed.

(** ** Close encounters *)

(** X19.  [figure4] cannot unpack [zip( *small)] exactly when no row of
    the catalogue has a gap of at most 100 (in particular for an empty
    catalogue); otherwise [ns] and [ks] are the stars and gaps of the
    rows with a gap of at most 100, in file order. *)
Theorem close_encounters_defined (satellites : list (Z * Z)) :
  (Analysis.close_encounters satellites = None
     ↔ Forall (λ row, 100 < row.2) satellites) ∧
  (∀ ns ks, Analysis.close_encounters satellites = Some (ns, ks) →
            zip ns ks = filter (λ row, row.2 ≤ 100) satellites ∧
            length ns = length ks ∧
            Forall (λ k, k ≤ 100) ks).
Proof.
  unfold Analysis.close_encounters, Analysis.unzip, Analysis.small. split.
  - split.
    + intros Hnone. apply Forall_forall. intros row Hrow.
      destruct (decide (row.2 ≤ 100)) as [Hle|]; [|lia]. exfalso.
      assert (row ∈ filter (λ row : Z * Z, row.2 ≤ 100) satellites) as Hin
        by (by apply list_elem_of_filter).
      destruct (filter _ satellites); [by apply elem_of_nil in Hin|done].
    + intros Hall. rewrite filter_none; [done|].
      intros row Hrow Hle. eapply Forall_forall in Hall; [|exact Hrow]. lia.
  - intros ns ks Hsome.
    assert (ns = fst <$> filter (λ row : Z * Z, row.2 ≤ 100) satellites ∧
            ks = snd <$> filter (λ row : Z * Z, row.2 ≤ 100) satellites)
      as [-> ->].
    { destruct (filter _ satellites); [done|]. by injection Hsome as <- <-. }
    split; [apply zip_fst_snd|]. split; [by rewrite !length_fmap|].
    apply Forall_fmap, Forall_forall. intros row [Hle _]%list_elem_of_filter.
    exact Hle.
Qed.


(** ** The residues excluded by a prime *)

Lemma elem_of_bad_fold (p k : Z) (l : list Z) (s : gset Z) x :
  x ∈ foldl (λ bad r,
               let bad := if r `mod` p =? 0 then bad ∪ {[ r ]} else bad in
               if (r + k) `mod` p =? 0 then bad ∪ {[ r ]} else bad) s l
  ↔ x ∈ s ∨ (x ∈ l ∧ (x `mod` p = 0 ∨ (x + k) `mod` p = 0)).
Proof.
  revert s. induction l as [|r l IH]; intros s; simpl.
  - rewrite elem_of_nil. tauto.
  - rewrite IH, elem_of_cons.
    destruct (Z.eqb_spec (r `mod` p) 0) as [H1|H1],
      (Z.eqb_spec ((r + k) `mod` p) 0) as [H2|H2];
      rewrite ?elem_of_union, ?elem_of_singleton;
      intuition (subst; tauto).
Qed.

Lemma bad_pair p k : 1 ≤ p → Analysis.bad p k = {[ 0 ]} ∪ {[ (- k) `mod` p ]}.
Proof.
  intros Hp. apply set_eq. intros x.
  unfold Analysis.bad, for_each.
  rewrite elem_of_bad_fold, elem_of_range, elem_of_union, !elem_of_singleton by lia.
  pose proof (not_elem_of_empty (C:=gset Z) x) as Hempty.
  pose proof (Z.mod_pos_bound (- k) p ltac:(lia)) as Hm.
  split.
  - intros [?|[[Hx _] Hbad]]; [done|].
    rewrite (Z.mod_small x p) in Hbad by lia.
    destruct Hbad as [?|Hbad]; [by left|]. right.
    rewrite <- (Z.mod_small x p) by lia.
    replace x with ((x + k) + - k) at 1 by lia.
    rewrite Zplus_mod, Hbad. simpl. apply Z.mod_mod. lia.
  - intros [->| ->]; right.
    + split; [|left; apply Z.mod_0_l; lia]. rewrite Z.mod_1_r. lia.
    + split; [rewrite Z.mod_1_r; lia|]. right.
      rewrite Zplus_mod, Z.mod_mod, <- Zplus_mod by lia.
      replace (- k + k) with 0 by lia. apply Z.mod_0_l. lia.
Qed.

(** X20.  In [compute_S] the count [nu] for a modulus [p >= 1] and a gap
    [k] is 1 when [p] divides [k] and 2 otherwise: the loop over all
    residues finds just the classes of 0 and of [-k]. *)
Theorem nu_closed_form (p k : Z) :
  1 ≤ p →
  Analysis.bad p k = {[ 0 ]} ∪ {[ (- k) `mod` p ]} ∧
  Analysis.nu p k = if decide (k `mod` p = 0) then 1%nat else 2%nat.
Proof.
  intros Hp. split; [by apply bad_pair|].
  unfold Analysis.nu. rewrite bad_pair by done.
  destruct (decide (k `mod` p = 0)) as [Hk|Hk].
  - rewrite Z.mod_opp_l_z by lia.
    rewrite union_idemp_L. apply size_singleton.
  - rewrite size_union, !size_singleton; [done|].
    apply elem_of_disjoint.
    intros x ->%elem_of_singleton Hz%elem_of_singleton.
    symmetry in Hz. apply Hk.
    apply Z.mod_divide in Hz; [|lia]. apply Z.mod_divide; [lia|].
    by apply Z.divide_opp_r.
Qed.

Lemma nu_closed_form_witness :
  Analysis.bad 5 12 = {[ 0 ]} ∪ {[ (- 12) `mod` 5 ]} ∧
  Analysis.nu 5 12 = if decide (12 `mod` 5 = 0) then 1%nat else 2%nat.
Proof. apply (nu_closed_form 5 12). lia. Defined.

(** ** Tables without overlapping quadruplets *)

Lemma NoDup_main_stars (bases : list Z) :
  StronglySorted (λ a b, a + 4 ≤ b) bases → NoDup (main_stars bases).
Proof.
  induction 1 as [|b bases Hsorted IH Hb]; [constructor|].
  unfold main_stars. rewrite bind_cons. apply NoDup_app. split; [|split].
  - apply StronglySorted_lt_NoDup.
    apply (StronglySorted_fmap _ Z.lt Z.lt); [intros; lia|].
    apply StronglySorted_range. lia.
  - intros n (o & -> & Ho)%list_elem_of_fmap (b' & Hb' & Hn)%elem_of_main_stars.
    apply elem_of_range in Ho; [|lia].
    eapply Forall_forall in Hb; [|exact Hb']. lia.
  - exact IH.
Qed.

(** X21.  No double counting without overlap: when the table entries are
    ascending and at least 4 apart, no star is scanned twice, no
    (star, gap) pair is put to the oracle twice and no hit is printed
    twice. *)
Theorem no_double_counting (has : bool) (ip : Z → Z → bool) (radius : Z)
    (bases : list Z) :
  StronglySorted (λ a b, a + 4 ≤ b) bases →
  let st := scan has ip radius bases init in
  NoDup (stars (trace st)) ∧ NoDup (probes (trace st)) ∧ NoDup (hits (trace st)).
Proof.
  intros Hnd%NoDup_main_stars st. subst st.
  rewrite stars_scan, probes_scan, hits_scan.
  split; [exact Hnd|]. split.
  - apply NoDup_bind; [| |exact Hnd].
    + intros n1 n2 p _ _ (k1 & -> & _)%list_elem_of_fmap
        (k2 & [= -> _] & _)%list_elem_of_fmap. reflexivity.
    + intros n _. apply NoDup_fmap_2_strong; [|apply NoDup_filter, NoDup_gaps].
      intros k1 k2 _ _ [= ->]. reflexivity.
  - apply NoDup_bind; [| |exact Hnd].
    + intros n1 n2 p _ _ (k1 & -> & _)%list_elem_of_fmap
        (k2 & [= -> _] & _)%list_elem_of_fmap. reflexivity.
    + intros n _. apply NoDup_fmap_2_strong; [|apply NoDup_filter, NoDup_gaps].
      intros k1 k2 _ _ [= ->]. reflexivity.
Qed.

Lemma no_double_counting_witness :
  let st := scan true (λ _ _, true) SEARCH_RADIUS hardcoded_n init in
  NoDup (stars (trace st)) ∧ NoDup (probes (trace st)) ∧ NoDup (hits (trace st)).
Proof.
  apply (no_double_counting true (λ _ _, true) SEARCH_RADIUS hardcoded_n).
  apply (bool_decide_unpack _). vm_compute. exact I.
Defined.
